(** * Minesweeper knowledge base: a shallow embedding of
    [Project 1/minesweeper/minesweeper.py]

    The Python classes [Sentence] and [MinesweeperAI] are embedded with explicit
    state passing.  Sentences are mutable objects shared by reference between
    the knowledge list and the local variables of [add_knowledge], so the
    state carries an object store ([heap]) and the knowledge list holds
    addresses into it. *)

From Stdlib Require Import ZArith Lia.
From stdpp Require Import base option list gmap sets.

Local Open Scope Z_scope.

(* stdpp's solvers clear hypotheses that are already gone *)
#[local] Set Warnings "-clear-no-such-hyp".

(** ** Cells and sentences *)

(** A cell is the Python tuple [(row, col)]. *)
Abbreviation Cell := (Z * Z)%type.

(** [class Sentence]: a set of cells and a count. *)
Record Sentence : Type := mkSentence {
  cells : gset Cell;
  count : Z
}.

Module Sentence.

(** [Sentence.__init__]: stores [set(cells)] and [count] as given. *)
Definition init (cs : gset Cell) (n : Z) : Sentence :=
  {| cells := cs; count := n |}.

(** [Sentence.__eq__] *)
Definition eq (a b : Sentence) : bool :=
  bool_decide (cells a = cells b) && (count a =? count b).

(** [len(self.cells)] *)
Definition len (s : Sentence) : Z := Z.of_nat (size (cells s)).

(** [Sentence.known_mines]; [None] is Python's [None], also returned
    implicitly when neither branch is taken. *)
Definition known_mines (s : Sentence) : option (gset Cell) :=
  if len s =? count s then Some (cells s)
  else if count s =? 0 then None
  else None.

(** [Sentence.known_safes] *)
Definition known_safes (s : Sentence) : option (gset Cell) :=
  if count s =? 0 then Some (cells s) else None.

(** [Sentence.mark_mine] *)
Definition mark_mine (c : Cell) (s : Sentence) : Sentence :=
  if decide (c ∈ cells s)
  then {| cells := cells s ∖ {[c]}; count := count s - 1 |}
  else s.

(** [Sentence.mark_safe] *)
Definition mark_safe (c : Cell) (s : Sentence) : Sentence :=
  if decide (c ∈ cells s)
  then {| cells := cells s ∖ {[c]}; count := count s |}
  else s.

End Sentence.

(** ** The player state *)

(** [class MinesweeperAI].  [heap] is the store of all [Sentence] objects
    created so far (an address is an index into it); [knowledge] is
    [self.knowledge], a list of references. *)
Record MinesweeperAI : Type := mkMinesweeperAI {
  height : Z;
  width : Z;
  moves_made : gset Cell;
  mines : gset Cell;
  safes : gset Cell;
  heap : list Sentence;
  knowledge : list nat
}.

(** [MinesweeperAI.__init__] *)
Definition MinesweeperAI_init (h w : Z) : MinesweeperAI :=
  {| height := h; width := w; moves_made := ∅; mines := ∅; safes := ∅;
     heap := []; knowledge := [] |}.

Definition set_heap (st : MinesweeperAI) (h : list Sentence) : MinesweeperAI :=
  {| height := height st; width := width st; moves_made := moves_made st;
     mines := mines st; safes := safes st; heap := h;
     knowledge := knowledge st |}.

Definition set_knowledge (st : MinesweeperAI) (k : list nat) : MinesweeperAI :=
  {| height := height st; width := width st; moves_made := moves_made st;
     mines := mines st; safes := safes st; heap := heap st;
     knowledge := k |}.

(** Reading the object behind a reference.  Every reference the program
    holds was returned by [alloc], so the default is never used. *)
Definition deref (st : MinesweeperAI) (r : nat) : Sentence :=
  default (Sentence.init ∅ 0) (heap st !! r).

(** Creating an object: [Sentence(cells, count)]. *)
Definition alloc (st : MinesweeperAI) (s : Sentence) : MinesweeperAI * nat :=
  (set_heap st (heap st ++ [s]), length (heap st)).

(** [for sentence in self.knowledge: sentence.f()] *)
Definition update_all (f : Sentence → Sentence) (st : MinesweeperAI)
  : MinesweeperAI :=
  set_heap st (foldl (λ h r, alter f r h) (heap st) (knowledge st)).

(** [MinesweeperAI.mark_mine] *)
Definition mark_mine (c : Cell) (st : MinesweeperAI) : MinesweeperAI :=
  update_all (Sentence.mark_mine c)
    {| height := height st; width := width st; moves_made := moves_made st;
       mines := {[c]} ∪ mines st; safes := safes st; heap := heap st;
       knowledge := knowledge st |}.

(** [MinesweeperAI.mark_safe] *)
Definition mark_safe (c : Cell) (st : MinesweeperAI) : MinesweeperAI :=
  update_all (Sentence.mark_safe c)
    {| height := height st; width := width st; moves_made := moves_made st;
       mines := mines st; safes := {[c]} ∪ safes st; heap := heap st;
       knowledge := knowledge st |}.

(** [for cell in cs: self.mark_mine(cell)] and its [mark_safe] twin.  The
    iteration order of a Python set is unspecified; [elements] fixes one. *)
Definition mark_mines (cs : gset Cell) (st : MinesweeperAI) : MinesweeperAI :=
  foldl (λ st c, mark_mine c st) st (elements cs).

Definition mark_safes (cs : gset Cell) (st : MinesweeperAI) : MinesweeperAI :=
  foldl (λ st c, mark_safe c st) st (elements cs).

(** [self.knowledge.remove(x)]: drops the first entry that is [==] to [x]. *)
Fixpoint remove_first (h : list Sentence) (x : Sentence) (k : list nat)
  : list nat :=
  match k with
  | [] => []
  | r :: k' =>
      if Sentence.eq (default (Sentence.init ∅ 0) (h !! r)) x then k'
      else r :: remove_first h x k'
  end.

Definition knowledge_remove (st : MinesweeperAI) (x : Sentence)
  : MinesweeperAI :=
  set_knowledge st (remove_first (heap st) x (knowledge st)).

(** [x in self.knowledge] *)
Definition knowledge_contains (st : MinesweeperAI) (x : Sentence) : bool :=
  existsb (λ r, Sentence.eq (deref st r) x) (knowledge st).

(** ** [check_knowledge] *)

(** The [for sentence in self.knowledge] loop of [check_knowledge].  The
    list iterator keeps an index [i] into the live list, which the body
    shortens with [remove].  [n] bounds the number of iterations; the list
    never grows here, so [length (knowledge st) - i] iterations are all
    there can be. *)
Fixpoint ck_scan (n i : nat) (st : MinesweeperAI) (ms ss : gset Cell)
    (upd : bool)
  : MinesweeperAI * gset Cell * gset Cell * bool :=
  match n with
  | O => (st, ms, ss, upd)
  | S n' =>
      match knowledge st !! i with
      | None => (st, ms, ss, upd)
      | Some r =>
          let s := deref st r in
          if Sentence.len s =? 0 then
            ck_scan n' (S i) (knowledge_remove st s) ms ss upd
          else
            let '(ms, upd) :=
              match Sentence.known_mines s with
              | Some cs => (ms ∪ cs, true)
              | None => (ms, upd)
              end in
            let '(ss, upd) :=
              match Sentence.known_safes s with
              | Some cs => (ss ∪ cs, true)
              | None => (ss, upd)
              end in
            ck_scan n' (S i) st ms ss upd
      end
  end.

(** [check_knowledge], with [fuel] bounding the depth of its recursion. *)
Fixpoint check_knowledge_fuel (fuel : nat) (st : MinesweeperAI)
  : option MinesweeperAI :=
  match fuel with
  | O => None
  | S f =>
      let '(st, ms, ss, upd) :=
        ck_scan (length (knowledge st)) 0 st ∅ ∅ false in
      if upd then check_knowledge_fuel f (mark_safes ss (mark_mines ms st))
      else Some st
  end.

(** Each repeating pass empties a non-empty sentence, so one more pass than
    there are sentences is enough (theorem [check_knowledge_total]). *)
Definition check_knowledge (st : MinesweeperAI) : option MinesweeperAI :=
  check_knowledge_fuel (S (length (knowledge st))) st.

(** ** [check_and_add_sentence] *)

(** Lines 268-281: the sentence derived from [info] and [sentence]. *)
Definition resolve (info sentence : Sentence) : option Sentence :=
  if decide (cells info ⊆ cells sentence) then
    Some (Sentence.init (cells sentence ∖ cells info)
                        (count sentence - count info))
  else if decide (cells sentence ⊆ cells info) then
    Some (Sentence.init (cells info ∖ cells sentence)
                        (count info - count sentence))
  else None.

(** The [for info in self.knowledge] loop of [check_and_add_sentence]:
    [r] is the local variable [sentence], [i] the iterator's index into the
    live list, [rec] the recursive call.  Recursive calls append to the list
    while it is iterated, so the iteration count [n] is fuel. *)
Fixpoint subset_loop (rec : MinesweeperAI → nat → option MinesweeperAI)
    (r : nat) (n i : nat)
    (st : MinesweeperAI) : option MinesweeperAI :=
  match knowledge st !! i with
  | None => Some st
  | Some ir =>
      match n with
      | O => None
      | S n' =>
          let info := deref st ir in
          if Sentence.len info =? 0 then
            subset_loop rec r n' (S i) (knowledge_remove st info)
          else
            match resolve info (deref st r) with
            | Some d =>
                let '(st, dr) := alloc st d in
                st ← rec st dr;
                subset_loop rec r n' (S i) st
            | None => subset_loop rec r n' (S i) st
            end
      end
  end.

(** [check_and_add_sentence(sentence)], [r] being the reference held by
    [sentence].  [fuel] bounds the recursion depth and the length of each
    subset loop; running out of it is [None]. *)
Fixpoint check_and_add_sentence (fuel : nat) (st : MinesweeperAI) (r : nat)
  : option MinesweeperAI :=
  match fuel with
  | O => None
  | S f =>
      st ← check_knowledge st;
      let s := deref st r in
      if knowledge_contains st s then Some st
      else if Sentence.len s =? 0 then Some st
      else
        match Sentence.known_mines s with
        | Some cs => Some (mark_mines cs st)
        | None =>
            match Sentence.known_safes s with
            | Some cs => Some (mark_safes cs st)
            | None =>
                let st := set_knowledge st (knowledge st ++ [r]) in
                subset_loop (check_and_add_sentence f) r f 0 st
            end
        end
  end.

(** ** [add_knowledge] *)

(** [range(x - 1, x + 2)] *)
Definition range3 (x : Z) : list Z := [x - 1; x; x + 1].

(** The body of the double loop at lines 293-310 for one [(row, col)]:
    the accumulator is [(new_set, count)]. *)
Definition neighbour_step (st : MinesweeperAI) (cell : Cell)
    (acc : gset Cell * Z)
    (rc : Cell) : gset Cell * Z :=
  let '(new_set, cnt) := acc in
  let '(row, col) := rc in
  if decide (rc = cell) then acc
  else if (row <? 0) || (row >=? width st) || (col <? 0) || (col >=? height st)
       then acc
  else if decide (rc ∈ safes st) then acc
  else if decide (rc ∈ mines st) then (new_set, cnt - 1)
  else (new_set ∪ {[rc]}, cnt).

Definition neighbourhood (cell : Cell) : list Cell :=
  row ← range3 (fst cell); col ← range3 (snd cell); [(row, col)].

Definition build_sentence (st : MinesweeperAI) (cell : Cell) (cnt : Z)
  : Sentence :=
  let '(new_set, cnt) :=
    foldl (neighbour_step st cell) (∅, cnt) (neighbourhood cell) in
  Sentence.init new_set cnt.

(** [MinesweeperAI.add_knowledge(cell, count)] *)
Definition add_knowledge (fuel : nat) (cell : Cell) (cnt : Z)
    (st : MinesweeperAI)
  : option MinesweeperAI :=
  let st :=
    {| height := height st; width := width st;
       moves_made := {[cell]} ∪ moves_made st;
       mines := mines st; safes := {[cell]} ∪ safes st;
       heap := heap st; knowledge := knowledge st |} in
  let '(st, r) := alloc st (build_sentence st cell cnt) in
  check_and_add_sentence fuel st r.

(** [MinesweeperAI.make_safe_move]: the first cell of [safes], in the
    set's iteration order, that is not in [moves_made]. *)
Definition make_safe_move (st : MinesweeperAI) : option Cell :=
  find (λ c, bool_decide (c ∉ moves_made st)) (elements (safes st)).

(** A game loop's calls to [add_knowledge], in order; each call gets the
    same [fuel]. *)
Definition play (fuel : nat) (obs : list (Cell * Z)) (st : MinesweeperAI)
  : option MinesweeperAI :=
  foldl (λ o '(c, n), st ← o; add_knowledge fuel c n st) (Some st) obs.

(** ** Notions used in the statements *)

#[local] Instance Sentence_eq_dec : EqDecision Sentence.
Proof. solve_decision. Defined.

(** The stored sentences, by value. *)
Definition active (st : MinesweeperAI) : list Sentence :=
  deref st <$> knowledge st.

(** The bounds test of line 300, as written: the row is compared with
    [width] and the column with [height]. *)
Definition passes_bounds (st : MinesweeperAI) (rc : Cell) : Prop :=
  0 ≤ fst rc < width st ∧ 0 ≤ snd rc < height st.

(** The neighbours that go into the new sentence, and those that only
    lower its count. *)
Definition kept (st : MinesweeperAI) (cell rc : Cell) : Prop :=
  rc ≠ cell ∧ passes_bounds st rc ∧ (rc ∉ safes st) ∧ (rc ∉ mines st).

Definition discounted (st : MinesweeperAI) (cell rc : Cell) : Prop :=
  rc ≠ cell ∧ passes_bounds st rc ∧ (rc ∉ safes st) ∧ (rc ∈ mines st).

#[local] Instance passes_bounds_dec st rc : Decision (passes_bounds st rc).
Proof. unfold passes_bounds. apply _. Defined.

#[local] Instance kept_dec st cell rc : Decision (kept st cell rc).
Proof. unfold kept. apply _. Defined.

#[local] Instance discounted_dec st cell rc :
  Decision (discounted st cell rc).
Proof. unfold discounted. apply _. Defined.

(** The store after [for sentence in k: sentence.f()]. *)
Definition alter_all (f : Sentence → Sentence) (h : list Sentence)
    (k : list nat) : list Sentence :=
  foldl (λ h r, alter f r h) h k.

(** A function that only removes one cell, such as the two
    [Sentence.mark_*] methods. *)
Definition removes (c : Cell) (f : Sentence → Sentence) : Prop :=
  ∀ s, cells (f s) = cells s ∖ {[c]}.

(** [st'] knows at least what [st] knows. *)
Definition grows (st st' : MinesweeperAI) : Prop :=
  mines st ⊆ mines st' ∧ safes st ⊆ safes st' ∧
  moves_made st ⊆ moves_made st'.

(** The operations of the knowledge base as one step relation: the public
    methods, the two closures of [add_knowledge], and the read-only query. *)
Inductive kb_step : MinesweeperAI → MinesweeperAI → Prop :=
| step_add_knowledge fuel cell cnt st st' :
    add_knowledge fuel cell cnt st = Some st' → kb_step st st'
| step_check_and_add_sentence fuel r st st' :
    check_and_add_sentence fuel st r = Some st' → kb_step st st'
| step_check_knowledge st st' :
    check_knowledge st = Some st' → kb_step st st'
| step_mark_mine c st : kb_step st (mark_mine c st)
| step_mark_safe c st : kb_step st (mark_safe c st)
| step_make_safe_move st move :
    make_safe_move st = move → kb_step st st.

(** The stored sentences that still have cells: the measure that every
    repeating pass of [check_knowledge] decreases. *)
Definition nonempty_refs (st : MinesweeperAI) : list nat :=
  filter (λ r, cells (deref st r) ≠ ∅) (knowledge st).

(** A sentence from which nothing follows on its own: it has cells, not
    all of them are mines and not all of them are safe. *)
Definition nontrivial (s : Sentence) : Prop :=
  Sentence.len s ≠ 0 ∧ Sentence.len s ≠ count s ∧ count s ≠ 0.

(** Every stored sentence is nontrivial. *)
Definition settled (st : MinesweeperAI) : Prop :=
  ∀ r, r ∈ knowledge st → nontrivial (deref st r).

(** [s] is true of the board whose mines are [layout]. *)
Definition holds (layout : gset Cell) (s : Sentence) : Prop :=
  count s = Z.of_nat (size (cells s ∩ layout)).

(** ** Inputs of the runs *)

(** The observations that lead to the state used for C4. *)
Definition two_trivial_sentences : list (Cell * Z) :=
  [((1, 1), 1); ((0, 0), 1); ((1, 4), 0); ((0, 2), 1)].

(** The observations that lead to the state used for C3: mines at [(0,1)]
    and [(6,7)]. *)
Definition empty_sentence_ahead : list (Cell * Z) :=
  [((1, 1), 1); ((0, 0), 1); ((1, 4), 0); ((6, 6), 1); ((0, 2), 1)].

Definition around_6_6 : gset Cell :=
  {[ (5, 5); (5, 6); (5, 7); (6, 5); (6, 7); (7, 5); (7, 6); (7, 7) ]}.

(** The eight neighbours of [(1,1)], the four of them that are also
    neighbours of [(0,1)], and the other four. *)
Definition U8 : gset Cell :=
  {[ (0, 0); (0, 1); (0, 2); (1, 0); (1, 2); (2, 0); (2, 1); (2, 2) ]}.
Definition A4 : gset Cell := {[ (0, 0); (0, 2); (1, 0); (1, 2) ]}.
Definition B4 : gset Cell := {[ (0, 1); (2, 0); (2, 1); (2, 2) ]}.

(** The sentences [{A4} = 2], [{B4} = -1], [{A4} = 8], [{B4} = -7], ...:
    each one is derived from the one before and one of [{U8} = 1],
    [{U8} = 7]. *)
Definition chain (m : nat) : Sentence :=
  if Nat.even m then Sentence.init A4 (2 + 3 * Z.of_nat m)
  else Sentence.init B4 (2 - 3 * Z.of_nat m).

(** The states of the run: the knowledge holds [{U8} = 1], [{U8} = 7] and
    the first [m] sentences of the chain, in this order. *)
Definition chain_state (m : nat) (st : MinesweeperAI) : Prop :=
  active st = Sentence.init U8 1 :: Sentence.init U8 7 :: (chain <$> seq 0 m).

(** ** [class Minesweeper] and [make_random_move] *)

(** Python's [l[i]]: the position an index stands for.  A negative index
    counts from the end; an index out of range raises [IndexError], here
    [None]. *)
Definition position {A : Type} (l : list A) (i : Z) : option nat :=
  let n := Z.of_nat (length l) in
  if (0 <=? i) && (i <? n) then Some (Z.to_nat i)
  else if (- n <=? i) && (i <? 0) then Some (Z.to_nat (n + i))
  else None.

Definition index {A : Type} (l : list A) (i : Z) : option A :=
  p ← position l i; l !! p.

Module Minesweeper.

(** The game: [board] is the list of rows, [mines] the set of mined
    cells. *)
Record t : Type := mk {
  height : Z;
  width : Z;
  mines : gset Cell;
  board : list (list bool);
  mines_found : gset Cell
}.

(** Lines 18-23: [height] rows of [width] times [False]. *)
Definition empty_board (h w : Z) : list (list bool) :=
  replicate (Z.to_nat h) (replicate (Z.to_nat w) false).

(** One round of the loop at lines 26-31, [ij] being the two numbers
    drawn: [self.board[i][j]] is read and, when it is [False], the cell is
    added to [self.mines] and written [True]. *)
Definition place (g : t) (ij : Cell) : option t :=
  let '(i, j) := ij in
  pi ← position (board g) i;
  row ← board g !! pi;
  pj ← position row j;
  b ← row !! pj;
  if b : bool then Some g
  else Some {| height := height g; width := width g;
               mines := {[ (i, j) ]} ∪ mines g;
               board := <[pi := <[pj := true]> row]> (board g);
               mines_found := mines_found g |}.

(** The loop [while len(self.mines) != mines], fed with the numbers that
    [random.randrange] draws.  [None]: the draws are used up before the
    loop is over, or an index is out of range. *)
Fixpoint place_mines (draws : list Cell) (target : Z) (g : t) : option t :=
  if Z.of_nat (size (mines g)) =? target then Some g
  else match draws with
       | [] => None
       | ij :: draws => g ← place g ij; place_mines draws target g
       end.

(** [Minesweeper.__init__(height, width, mines)] *)
Definition init (h w target : Z) (draws : list Cell) : option t :=
  place_mines draws target
    {| height := h; width := w; mines := ∅; board := empty_board h w;
       mines_found := ∅ |}.

(** [Minesweeper.is_mine] *)
Definition is_mine (g : t) (cell : Cell) : option bool :=
  row ← index (board g) (fst cell); index row (snd cell).

(** The body of the double loop of [nearby_mines] (lines 66-76). *)
Definition nearby_step (g : t) (cell : Cell) (acc : option Z) (ij : Cell)
  : option Z :=
  cnt ← acc;
  if decide (ij = cell) then Some cnt
  else if (0 <=? fst ij) && (fst ij <? height g)
          && (0 <=? snd ij) && (snd ij <? width g)
  then b ← is_mine g ij; Some (if b : bool then cnt + 1 else cnt)
  else Some cnt.

(** [Minesweeper.nearby_mines] *)
Definition nearby_mines (g : t) (cell : Cell) : option Z :=
  foldl (nearby_step g cell) (Some 0) (neighbourhood cell).

(** [Minesweeper.won] *)
Definition won (g : t) : bool := bool_decide (mines_found g = mines g).

(** The cells of the board. *)
Definition on_board (g : t) (c : Cell) : Prop :=
  0 ≤ fst c < height g ∧ 0 ≤ snd c < width g.

(** What [__init__] establishes: the board is a [height] by [width]
    rectangle, the mines are cells of the board, and a cell of the board
    reads [True] exactly when it is in [mines]. *)
Definition wf (g : t) : Prop :=
  length (board g) = Z.to_nat (height g) ∧
  (∀ row, row ∈ board g → length row = Z.to_nat (width g)) ∧
  (∀ c, c ∈ mines g → on_board g c) ∧
  (∀ c, on_board g c → is_mine g c = Some (bool_decide (c ∈ mines g))).

End Minesweeper.

(** [MinesweeperAI.make_random_move], fed with the cells that the two
    [random.randrange] calls draw.  The result [Some None] is Python's
    [None]; [None] means the draws are used up and the loop is still
    running. *)
Fixpoint make_random_move (draws : list Cell) (st : MinesweeperAI)
  : option (option Cell) :=
  if Z.of_nat (size (moves_made st)) + Z.of_nat (size (mines st))
     =? height st * width st
  then Some None
  else match draws with
       | [] => None
       | cell :: draws =>
           if decide ((cell ∉ moves_made st) ∧ (cell ∉ mines st))
           then Some (Some cell)
           else make_random_move draws st
       end.

(** The cells [randrange(height)], [randrange(width)] can give. *)
Definition in_range (h w : Z) (c : Cell) : Prop :=
  0 ≤ fst c < h ∧ 0 ≤ snd c < w.

(** The player's knowledge is right about the board whose mines are
    [layout]: every sentence ever created is true of it, the known mines
    are mines and the known safe cells are not. *)
Definition sound (layout : gset Cell) (st : MinesweeperAI) : Prop :=
  Forall (holds layout) (heap st) ∧ mines st ⊆ layout ∧ safes st ## layout.

(** The eight cells around [cell]. *)
Definition around (cell : Cell) : gset Cell :=
  list_to_set (neighbourhood cell) ∖ {[ cell ]}.

(** [st'] has the moves and the board size of [st]. *)
Definition same_frame (st st' : MinesweeperAI) : Prop :=
  moves_made st' = moves_made st ∧ height st' = height st ∧
  width st' = width st.

(** The observations the game gives: each cell is not a mine and comes
    with the number [nearby_mines] returns for it. *)
Definition truthful (g : Minesweeper.t) (obs : list (Cell * Z)) : Prop :=
  Forall (λ o, (fst o ∉ Minesweeper.mines g) ∧
               Minesweeper.nearby_mines g (fst o) = Some (snd o)) obs.






(** Closed decidable goals are settled by evaluation. *)
Ltac by_compute :=
  match goal with
  | |- ?P => apply (bool_decide_unpack P); vm_compute; exact I
  end.

(** ** Sentences *)

Section sentence_facts.

Implicit Types (s : Sentence) (c : Cell).

Lemma len_nonneg s : 0 ≤ Sentence.len s.
Proof. unfold Sentence.len. lia. Qed.

Lemma len_zero_iff s : Sentence.len s = 0 ↔ cells s = ∅.
Proof.
  unfold Sentence.len. split.
  - intros H. apply leibniz_equiv, size_empty_iff. lia.
  - intros ->. by rewrite size_empty.
Qed.

Lemma mark_mine_cells c s : cells (Sentence.mark_mine c s) = cells s ∖ {[c]}.
Proof.
  unfold Sentence.mark_mine. destruct (decide _) as [Hc | Hc]; simpl; [done |].
  symmetry. apply difference_disjoint_L, disjoint_singleton_r, Hc.
Qed.

Lemma mark_safe_cells c s : cells (Sentence.mark_safe c s) = cells s ∖ {[c]}.
Proof.
  unfold Sentence.mark_safe. destruct (decide _) as [Hc | Hc]; simpl; [done |].
  symmetry. apply difference_disjoint_L, disjoint_singleton_r, Hc.
Qed.

Lemma sentence_eq_spec a b : Sentence.eq a b = true ↔ a = b.
Proof.
  unfold Sentence.eq. rewrite andb_true_iff, bool_decide_eq_true, Z.eqb_eq.
  destruct a, b; simpl. split; [intros [-> ->]; done | by inversion 1].
Qed.

End sentence_facts.

(** C10: at the vacuous sentence (no cells, count 0) [known_mines] returns
    the (empty) cell set, not [None]. *)
Lemma known_mines_vacuous_not_none :
  Sentence.known_mines (Sentence.init ∅ 0) = Some ∅ ∧
  Sentence.known_mines (Sentence.init ∅ 0) ≠ None.
Proof. split; [reflexivity | discriminate]. Qed.

(** C10, as the code has it: [known_mines] returns the cell set exactly
    when the number of cells equals the count, whatever the count's sign,
    and [None] otherwise. *)
Theorem known_mines_spec (s : Sentence) :
  Sentence.known_mines s =
    if bool_decide (Sentence.len s = count s) then Some (cells s) else None.
Proof.
  unfold Sentence.known_mines.
  destruct (Z.eqb_spec (Sentence.len s) (count s)) as [E | E].
  - by rewrite bool_decide_eq_true_2.
  - rewrite bool_decide_eq_false_2 by done. by destruct (count s =? 0).
Qed.

(** C8: the constructor accepts a negative count, and a count above the
    number of cells, and stores them. *)
Lemma init_accepts_ill_formed :
  count (Sentence.init ∅ (-1)) = -1 ∧
  count (Sentence.init {[ (0, 0) ]} 5) = 5 ∧
  ¬ (∀ cs n, 0 ≤ count (Sentence.init cs n) ≤ Sentence.len (Sentence.init cs n)).
Proof.
  split; [reflexivity | split; [reflexivity |]].
  intros H. specialize (H ∅ (-1)). simpl in H. lia.
Qed.

(** C8, as the code has it: construction never fails and stores the cells
    and the count unchanged, so the constructed sentence satisfies
    [0 ≤ count ≤ |cells|] exactly when the arguments do. *)
Theorem init_stores_arguments (cs : gset Cell) (n : Z) :
  cells (Sentence.init cs n) = cs ∧ count (Sentence.init cs n) = n ∧
  (0 ≤ count (Sentence.init cs n) ≤ Sentence.len (Sentence.init cs n)
   ↔ 0 ≤ n ≤ Z.of_nat (size cs)).
Proof. done. Qed.

(** ** Building the sentence of an observation *)

Section build_sentence_facts.

Variables (st : MinesweeperAI) (cell : Cell).

Lemma neighbour_step_cases (acc : gset Cell * Z) (rc : Cell) :
  neighbour_step st cell acc rc =
    if decide (kept st cell rc) then (fst acc ∪ {[rc]}, snd acc)
    else if decide (discounted st cell rc) then (fst acc, snd acc - 1)
    else acc.
Proof.
  destruct acc as [new_set cnt], rc as [row col].
  unfold neighbour_step, kept, discounted, passes_bounds. simpl.
  destruct (decide ((row, col) = cell)) as [Heq | Hne].
  { rewrite !decide_False by (intros [? _]; done). done. }
  destruct (Z.ltb_spec row 0), (Z.geb_spec row (width st)),
    (Z.ltb_spec col 0), (Z.geb_spec col (height st)); simpl;
    try (rewrite !decide_False by (intros (_ & Hb & _); lia); done).
  destruct (decide ((row, col) ∈ safes st)).
  { rewrite !decide_False by (intros (_ & _ & ? & _); done). done. }
  destruct (decide ((row, col) ∈ mines st)).
  - rewrite decide_False by (intros (_ & _ & _ & ?); done).
    rewrite decide_True; [done | repeat split; try done; lia].
  - rewrite decide_True; [done | repeat split; try done; lia].
Qed.

Lemma neighbour_fold (l : list Cell) (acc : gset Cell * Z) :
  let res := foldl (neighbour_step st cell) acc l in
  (∀ x, x ∈ fst res ↔ x ∈ fst acc ∨ (x ∈ l ∧ kept st cell x)) ∧
  snd res = snd acc - Z.of_nat (length (filter (discounted st cell) l)).
Proof.
  revert acc. induction l as [| rc l IH]; intros acc; simpl.
  { split; [intros x; rewrite elem_of_nil; tauto | lia]. }
  destruct (IH (neighbour_step st cell acc rc)) as [IH1 IH2].
  split.
  - intros x. rewrite IH1, neighbour_step_cases, elem_of_cons.
    destruct (decide (kept st cell rc)) as [Hk | Hk]; simpl.
    + rewrite elem_of_union, elem_of_singleton. naive_solver.
    + destruct (decide (discounted st cell rc)); simpl; naive_solver.
  - rewrite IH2, neighbour_step_cases, filter_cons.
    destruct (decide (kept st cell rc)) as [Hk | Hk]; simpl.
    + rewrite decide_False; [done |].
      intros (_ & _ & _ & ?). by destruct Hk as (_ & _ & _ & ?).
    + destruct (decide (discounted st cell rc)); simpl; lia.
Qed.

(** What [add_knowledge] puts in the new sentence. *)
Lemma build_sentence_cells (cnt : Z) (x : Cell) :
  x ∈ cells (build_sentence st cell cnt) ↔ x ∈ neighbourhood cell ∧ kept st cell x.
Proof.
  unfold build_sentence.
  destruct (neighbour_fold (neighbourhood cell) (∅, cnt)) as [H _].
  destruct (foldl _ _ _) as [new_set cnt']. simpl in *.
  rewrite H, elem_of_empty. tauto.
Qed.

Lemma build_sentence_count (cnt : Z) :
  count (build_sentence st cell cnt) =
    cnt - Z.of_nat (length (filter (discounted st cell) (neighbourhood cell))).
Proof.
  unfold build_sentence.
  destruct (neighbour_fold (neighbourhood cell) (∅, cnt)) as [_ H].
  destruct (foldl _ _ _) as [new_set cnt']. simpl in *. done.
Qed.

(** The nine cells the double loop goes through. *)
Lemma elem_of_neighbourhood (x : Cell) :
  x ∈ neighbourhood cell ↔
  fst cell - 1 ≤ fst x ≤ fst cell + 1 ∧ snd cell - 1 ≤ snd x ≤ snd cell + 1.
Proof.
  destruct cell as [r c], x as [r' c']. unfold neighbourhood, range3.
  cbn [fst snd mbind list_bind app]. rewrite !elem_of_cons, elem_of_nil.
  split.
  - intros H. repeat destruct H as [H | H]; try done;
      injection H as -> ->; lia.
  - intros [Hr Hc].
    assert (r' = r - 1 ∨ r' = r ∨ r' = r + 1) as [-> | [-> | ->]] by lia;
      assert (c' = c - 1 ∨ c' = c ∨ c' = c + 1) as [-> | [-> | ->]] by lia;
      tauto.
Qed.

(** On a square board the test of line 300 is the test against the board:
    there the new sentence holds the neighbours on the board that are
    neither the cell itself, nor known safe, nor known mines. *)
Lemma build_sentence_cells_square (cnt : Z) (x : Cell) :
  height st = width st →
  x ∈ cells (build_sentence st cell cnt) ↔
  x ∈ neighbourhood cell ∧ x ≠ cell ∧
  (0 ≤ fst x < height st ∧ 0 ≤ snd x < width st) ∧
  (x ∉ safes st) ∧ (x ∉ mines st).
Proof.
  intros Hsq. rewrite build_sentence_cells. unfold kept, passes_bounds.
  rewrite Hsq. tauto.
Qed.

End build_sentence_facts.

(** C2, evaluated on a board of height 3 and width 2 (rows 0..2, columns
    0..1): observing [(1,1)] with count 0 builds a sentence that holds the
    off-board cells [(0,2)] and [(1,2)] and misses the board cells [(2,0)]
    and [(2,1)], so the former are marked safe and the latter are not. *)
Theorem add_knowledge_bounds_swapped :
  cells (build_sentence (MinesweeperAI_init 3 2) (1, 1) 0)
    = {[ (0, 0); (0, 1); (0, 2); (1, 0); (1, 2) ]} ∧
  ∃ st, add_knowledge 1 (1, 1) 0 (MinesweeperAI_init 3 2) = Some st ∧
        (0, 2) ∈ safes st ∧ (1, 2) ∈ safes st ∧
        ((2, 0) ∉ safes st) ∧ ((2, 1) ∉ safes st).
Proof.
  split; [by vm_compute |].
  eexists. split; [vm_compute; reflexivity |].
  repeat split; by_compute.
Qed.

(** The 8×8 scenario of C2: on a fresh board, observing [(0,0)] with count
    0 marks its three neighbours safe. *)
Lemma corner_zero_marks_neighbours_safe :
  ∃ st, add_knowledge 1 (0, 0) 0 (MinesweeperAI_init 8 8) = Some st ∧
        (0, 1) ∈ safes st ∧ (1, 0) ∈ safes st ∧ (1, 1) ∈ safes st.
Proof.
  eexists. split; [vm_compute; reflexivity |].
  repeat split; by_compute.
Qed.

(** ** Runs of the knowledge base from a fresh 8×8 player *)

(** C1, evaluated: observing [(0,0)] and then [(0,1)], each with one
    adjacent mine.  [add_knowledge] adds the observed cell to [safes]
    without going through [mark_safe], so the sentence stored for [(0,0)]
    still holds [(0,1)] after [(0,1)] has become a confirmed safe cell. *)
Theorem observed_cell_left_in_sentence :
  ∃ st, play 5 [((0, 0), 1); ((0, 1), 1)] (MinesweeperAI_init 8 8) = Some st ∧
        (0, 1) ∈ safes st ∧
        active st = [ Sentence.init {[ (0, 1); (1, 0); (1, 1) ]} 1;
                      Sentence.init {[ (0, 2); (1, 0); (1, 1); (1, 2) ]} 1 ].
Proof.
  eexists. split; [vm_compute; reflexivity |].
  split; [by_compute | by vm_compute].
Qed.

(** C6: observing [(1,1)] and then [(0,0)], each with one adjacent mine.
    The second sentence [{(0,1),(1,0)} = 1] is stored, the derived
    sentence marks the other six neighbours of [(1,1)] safe, and that
    shrinks the first stored sentence to the value of the second. *)
Lemma value_equal_sentences_stored :
  ∃ st, play 5 [((1, 1), 1); ((0, 0), 1)] (MinesweeperAI_init 8 8) = Some st ∧
        knowledge st = [0; 2]%nat ∧
        deref st 0%nat = Sentence.init {[ (0, 1); (1, 0) ]} 1 ∧
        deref st 2%nat = Sentence.init {[ (0, 1); (1, 0) ]} 1.
Proof.
  eexists. split; [vm_compute; reflexivity |].
  repeat split; by vm_compute.
Qed.

(** C4, evaluated: after the observations above (one mine, at [(0,1)]) the
    knowledge holds [{(1,0)} = 0] twice.  [check_knowledge] marks [(1,0)]
    safe, which empties both; its next pass removes the first and, the
    list having shifted under the iterator, never looks at the second,
    which is still there when [check_knowledge] returns. *)
Theorem check_knowledge_leaves_empty_sentence :
  ∃ st st', play 5 two_trivial_sentences (MinesweeperAI_init 8 8) = Some st ∧
            active st = [ Sentence.init {[ (1, 0) ]} 0;
                          Sentence.init {[ (1, 0) ]} 0 ] ∧
            check_knowledge st = Some st' ∧
            active st' = [ Sentence.init ∅ 0 ].
Proof.
  eexists. eexists. split; [vm_compute; reflexivity |].
  split; [by vm_compute |].
  split; [vm_compute; reflexivity | by vm_compute].
Qed.

(** The scenario of C4: a knowledge base holding only
    [{(1,1),(1,2)} = 2]. *)
Lemma check_knowledge_all_mines :
  let st := {| height := 8; width := 8; moves_made := ∅; mines := ∅;
               safes := ∅;
               heap := [ Sentence.init {[ (1, 1); (1, 2) ]} 2 ];
               knowledge := [0%nat] |} in
  ∃ st', check_knowledge st = Some st' ∧
         mines st' = {[ (1, 1); (1, 2) ]} ∧ knowledge st' = [].
Proof.
  eexists. split; [vm_compute; reflexivity |].
  split; by vm_compute.
Qed.

(** C3, evaluated: the knowledge holds [{(1,0)} = 0] twice, followed by
    the sentence [around_6_6 = 1].  Observing [(7,7)] with count 1 stores
    [{(6,7),(7,6)} = 1], a subset of [around_6_6] with the same count.
    The subset loop removes the empty sentence it finds at index 0, the
    list shifts, and the loop goes on at index 1, past the sentence
    [around_6_6 = 1]: the difference [around_6_6 ∖ {(6,7),(7,6)} = 0] is
    never derived and its cells are not marked safe. *)
Theorem subset_pair_never_resolved :
  ∃ st0 st, play 5 empty_sentence_ahead (MinesweeperAI_init 8 8) = Some st0 ∧
            active st0 = [ Sentence.init {[ (1, 0) ]} 0;
                           Sentence.init {[ (1, 0) ]} 0;
                           Sentence.init around_6_6 1 ] ∧
            add_knowledge 5 (7, 7) 1 st0 = Some st ∧
            active st = [ Sentence.init around_6_6 1;
                          Sentence.init {[ (6, 7); (7, 6) ]} 1 ] ∧
            ((5, 5) ∉ safes st).
Proof.
  eexists. eexists. split; [vm_compute; reflexivity |].
  split; [by vm_compute |].
  split; [vm_compute; reflexivity |].
  split; [by vm_compute | by_compute].
Qed.

(** The same two observations on a fresh board: there the pair is resolved
    and the difference is marked safe. *)
Lemma subset_pair_resolved_on_fresh_board :
  ∃ st, play 5 [((6, 6), 1); ((7, 7), 1)] (MinesweeperAI_init 8 8) = Some st ∧
        (5, 5) ∈ safes st ∧ (5, 6) ∈ safes st ∧ (5, 7) ∈ safes st ∧
        (6, 5) ∈ safes st ∧ (7, 5) ∈ safes st.
Proof.
  eexists. split; [vm_compute; reflexivity |].
  repeat split; by_compute.
Qed.

(** ** The object store *)

Section store_facts.

Implicit Types (st : MinesweeperAI) (r : nat) (s : Sentence) (c : Cell).

Lemma deref_out_of_range st r :
  (length (heap st) ≤ r)%nat → deref st r = Sentence.init ∅ 0.
Proof. intros H. unfold deref. by rewrite lookup_ge_None_2. Qed.

(** A reference that reads as a sentence with cells is a live one. *)
Lemma deref_cells_valid st r :
  cells (deref st r) ≠ ∅ → (r < length (heap st))%nat.
Proof.
  intros H. destruct (decide (r < length (heap st))%nat) as [| Hge]; [done |].
  rewrite deref_out_of_range in H by lia. done.
Qed.

Lemma deref_alloc_old st s r :
  (r < length (heap st))%nat → deref (fst (alloc st s)) r = deref st r.
Proof. intros H. unfold deref, alloc. simpl. by rewrite lookup_app_l. Qed.

Lemma deref_alloc_new st s : deref (fst (alloc st s)) (snd (alloc st s)) = s.
Proof.
  unfold deref, alloc. simpl.
  rewrite lookup_app_r, Nat.sub_diag by lia. done.
Qed.

Lemma alter_all_length f k h : length (alter_all f h k) = length h.
Proof.
  revert h. induction k as [| r k IH]; intros h; simpl; [done |].
  unfold alter_all in *. simpl. rewrite IH. apply length_alter.
Qed.

Lemma alter_all_notin f k h r :
  r ∉ k → alter_all f h k !! r = h !! r.
Proof.
  revert h. induction k as [| r' k IH]; intros h Hr; [done |].
  apply not_elem_of_cons in Hr as [Hne Hr].
  unfold alter_all in *. simpl. rewrite IH by done.
  by apply list_lookup_alter_ne.
Qed.

Lemma alter_all_cells c f k h r :
  removes c f → r ∈ k →
  cells (default (Sentence.init ∅ 0) (alter_all f h k !! r))
  = cells (default (Sentence.init ∅ 0) (h !! r)) ∖ {[c]}.
Proof.
  intros Hf. revert h. induction k as [| r' k IH]; intros h Hr.
  { by apply elem_of_nil in Hr. }
  unfold alter_all in *. simpl.
  assert (Hstep : cells (default (Sentence.init ∅ 0) (alter f r' h !! r))
                  ∖ {[c]}
                  = cells (default (Sentence.init ∅ 0) (h !! r)) ∖ {[c]}).
  { destruct (decide (r' = r)) as [-> | Hne].
    - rewrite list_lookup_alter_eq. destruct (h !! r); simpl; [| done].
      rewrite Hf. set_solver.
    - by rewrite list_lookup_alter_ne. }
  destruct (decide (r ∈ k)) as [Hin | Hnin].
  - rewrite IH by done. apply Hstep.
  - fold (alter_all f (alter f r' h) k). rewrite alter_all_notin by done.
    apply elem_of_cons in Hr as [-> | ?]; [| done].
    rewrite list_lookup_alter_eq.
    destruct (h !! r'); simpl; [apply Hf | set_solver].
Qed.

Lemma update_all_notin f st r :
  r ∉ knowledge st → deref (update_all f st) r = deref st r.
Proof.
  intros H. unfold deref, update_all. simpl.
  fold (alter_all f (heap st) (knowledge st)). by rewrite alter_all_notin.
Qed.

Lemma update_all_cells c f st r :
  removes c f → r ∈ knowledge st →
  cells (deref (update_all f st) r) = cells (deref st r) ∖ {[c]}.
Proof.
  intros Hf H. unfold deref, update_all. simpl.
  fold (alter_all f (heap st) (knowledge st)). by apply alter_all_cells.
Qed.

Lemma update_all_heap_length f st :
  length (heap (update_all f st)) = length (heap st).
Proof. apply alter_all_length. Qed.

End store_facts.

(** ** Marking cells *)

Section mark_facts.

Implicit Types (st : MinesweeperAI) (r : nat) (c : Cell) (cs : gset Cell).

Lemma mark_mine_removes c : removes c (Sentence.mark_mine c).
Proof. intros s. apply mark_mine_cells. Qed.

Lemma mark_safe_removes c : removes c (Sentence.mark_safe c).
Proof. intros s. apply mark_safe_cells. Qed.

Lemma mark_mine_cells_in c st r :
  r ∈ knowledge st →
  cells (deref (mark_mine c st) r) = cells (deref st r) ∖ {[c]}.
Proof.
  intros H. unfold mark_mine.
  rewrite (update_all_cells c) by (done || apply mark_mine_removes). done.
Qed.

Lemma mark_safe_cells_in c st r :
  r ∈ knowledge st →
  cells (deref (mark_safe c st) r) = cells (deref st r) ∖ {[c]}.
Proof.
  intros H. unfold mark_safe.
  rewrite (update_all_cells c) by (done || apply mark_safe_removes). done.
Qed.

Lemma mark_mine_notin c st r :
  r ∉ knowledge st → deref (mark_mine c st) r = deref st r.
Proof. intros H. unfold mark_mine. by rewrite update_all_notin. Qed.

Lemma mark_safe_notin c st r :
  r ∉ knowledge st → deref (mark_safe c st) r = deref st r.
Proof. intros H. unfold mark_safe. by rewrite update_all_notin. Qed.

(** The fields a run of [mark_mine] calls leaves alone or grows. *)
Lemma mark_mine_list_fields (l : list Cell) st :
  let st' := foldl (λ st c, mark_mine c st) st l in
  knowledge st' = knowledge st ∧ mines st' = list_to_set l ∪ mines st ∧
  safes st' = safes st ∧ moves_made st' = moves_made st ∧
  height st' = height st ∧ width st' = width st ∧
  length (heap st') = length (heap st).
Proof.
  revert st. induction l as [| c l IH]; intros st; simpl.
  { repeat split; set_solver. }
  destruct (IH (mark_mine c st)) as (-> & -> & -> & -> & -> & -> & ->).
  unfold mark_mine at 7. rewrite update_all_heap_length. simpl.
  repeat split; set_solver.
Qed.

Lemma mark_safe_list_fields (l : list Cell) st :
  let st' := foldl (λ st c, mark_safe c st) st l in
  knowledge st' = knowledge st ∧ mines st' = mines st ∧
  safes st' = list_to_set l ∪ safes st ∧ moves_made st' = moves_made st ∧
  height st' = height st ∧ width st' = width st ∧
  length (heap st') = length (heap st).
Proof.
  revert st. induction l as [| c l IH]; intros st; simpl.
  { repeat split; set_solver. }
  destruct (IH (mark_safe c st)) as (-> & -> & -> & -> & -> & -> & ->).
  unfold mark_safe at 7. rewrite update_all_heap_length. simpl.
  repeat split; set_solver.
Qed.

Lemma mark_mines_fields cs st :
  knowledge (mark_mines cs st) = knowledge st ∧
  mines (mark_mines cs st) = cs ∪ mines st ∧
  safes (mark_mines cs st) = safes st ∧
  moves_made (mark_mines cs st) = moves_made st ∧
  height (mark_mines cs st) = height st ∧
  width (mark_mines cs st) = width st ∧
  length (heap (mark_mines cs st)) = length (heap st).
Proof.
  pose proof (mark_mine_list_fields (elements cs) st) as H.
  simpl in H. by rewrite list_to_set_elements_L in H.
Qed.

Lemma mark_safes_fields cs st :
  knowledge (mark_safes cs st) = knowledge st ∧
  mines (mark_safes cs st) = mines st ∧
  safes (mark_safes cs st) = cs ∪ safes st ∧
  moves_made (mark_safes cs st) = moves_made st ∧
  height (mark_safes cs st) = height st ∧
  width (mark_safes cs st) = width st ∧
  length (heap (mark_safes cs st)) = length (heap st).
Proof.
  pose proof (mark_safe_list_fields (elements cs) st) as H.
  simpl in H. by rewrite list_to_set_elements_L in H.
Qed.

(** Every stored sentence loses the marked cells; other objects are
    untouched. *)
Lemma mark_mine_list_cells (l : list Cell) st r :
  r ∈ knowledge st →
  cells (deref (foldl (λ st c, mark_mine c st) st l) r)
  = cells (deref st r) ∖ list_to_set l.
Proof.
  revert st. induction l as [| c l IH]; intros st Hr; simpl.
  { set_solver. }
  rewrite IH by done. rewrite mark_mine_cells_in by done. set_solver.
Qed.

Lemma mark_safe_list_cells (l : list Cell) st r :
  r ∈ knowledge st →
  cells (deref (foldl (λ st c, mark_safe c st) st l) r)
  = cells (deref st r) ∖ list_to_set l.
Proof.
  revert st. induction l as [| c l IH]; intros st Hr; simpl.
  { set_solver. }
  rewrite IH by done. rewrite mark_safe_cells_in by done. set_solver.
Qed.

Lemma mark_mines_cells cs st r :
  r ∈ knowledge st →
  cells (deref (mark_mines cs st) r) = cells (deref st r) ∖ cs.
Proof.
  intros H. unfold mark_mines. rewrite mark_mine_list_cells by done.
  by rewrite list_to_set_elements_L.
Qed.

Lemma mark_safes_cells cs st r :
  r ∈ knowledge st →
  cells (deref (mark_safes cs st) r) = cells (deref st r) ∖ cs.
Proof.
  intros H. unfold mark_safes. rewrite mark_safe_list_cells by done.
  by rewrite list_to_set_elements_L.
Qed.

Lemma mark_mines_notin cs st r :
  r ∉ knowledge st → deref (mark_mines cs st) r = deref st r.
Proof.
  unfold mark_mines. generalize (elements cs) as l. intros l. revert st.
  induction l as [| c l IH]; intros st Hr; simpl; [done |].
  rewrite IH by done. by apply mark_mine_notin.
Qed.

Lemma mark_safes_notin cs st r :
  r ∉ knowledge st → deref (mark_safes cs st) r = deref st r.
Proof.
  unfold mark_safes. generalize (elements cs) as l. intros l. revert st.
  induction l as [| c l IH]; intros st Hr; simpl; [done |].
  rewrite IH by done. by apply mark_safe_notin.
Qed.

End mark_facts.

(** ** Monotonicity of [mines], [safes] and [moves_made] *)

Section monotonicity.

Implicit Types (st : MinesweeperAI) (r : nat) (c : Cell) (cs : gset Cell).

Lemma grows_refl st : grows st st.
Proof. by repeat split. Qed.

Lemma grows_trans st1 st2 st3 : grows st1 st2 → grows st2 st3 → grows st1 st3.
Proof.
  intros (? & ? & ?) (? & ? & ?). repeat split; by etrans.
Qed.

Lemma mark_mine_grows c st : grows st (mark_mine c st).
Proof. unfold grows, mark_mine. simpl. repeat split; set_solver. Qed.

Lemma mark_safe_grows c st : grows st (mark_safe c st).
Proof. unfold grows, mark_safe. simpl. repeat split; set_solver. Qed.

Lemma mark_mines_grows cs st : grows st (mark_mines cs st).
Proof.
  destruct (mark_mines_fields cs st) as (_ & Hm & Hs & Hv & _).
  unfold grows. rewrite Hm, Hs, Hv. repeat split; set_solver.
Qed.

Lemma mark_safes_grows cs st : grows st (mark_safes cs st).
Proof.
  destruct (mark_safes_fields cs st) as (_ & Hm & Hs & Hv & _).
  unfold grows. rewrite Hm, Hs, Hv. repeat split; set_solver.
Qed.

(** The scan of [check_knowledge] changes nothing but the knowledge list. *)
Lemma ck_scan_fields n i st ms ss upd st' ms' ss' upd' :
  ck_scan n i st ms ss upd = (st', ms', ss', upd') →
  heap st' = heap st ∧ mines st' = mines st ∧ safes st' = safes st ∧
  moves_made st' = moves_made st ∧ height st' = height st ∧
  width st' = width st.
Proof.
  revert i st ms ss upd.
  induction n as [| n IH]; intros i st ms ss upd; simpl.
  { by intros [= <- _ _ _]. }
  destruct (knowledge st !! i) as [r |]; [| by intros [= <- _ _ _]].
  destruct (Sentence.len (deref st r) =? 0).
  - intros H. by apply IH in H.
  - destruct (Sentence.known_mines _), (Sentence.known_safes _);
      intros H; by apply IH in H.
Qed.

Lemma check_knowledge_fuel_grows fuel st st' :
  check_knowledge_fuel fuel st = Some st' → grows st st'.
Proof.
  revert st. induction fuel as [| f IH]; intros st; simpl; [done |].
  destruct (ck_scan _ _ _ _ _ _) as [[[st1 ms] ss] upd] eqn:Hscan.
  apply ck_scan_fields in Hscan as (_ & Hm & Hs & Hv & _).
  assert (grows st st1) as Hg.
  { unfold grows. rewrite Hm, Hs, Hv. done. }
  destruct upd.
  - intros H. apply IH in H.
    eapply grows_trans; [exact Hg |].
    eapply grows_trans; [apply mark_mines_grows |].
    eapply grows_trans; [apply mark_safes_grows | exact H].
  - by intros [= <-].
Qed.

Lemma check_knowledge_grows st st' :
  check_knowledge st = Some st' → grows st st'.
Proof. apply check_knowledge_fuel_grows. Qed.

Lemma subset_loop_grows (rec : MinesweeperAI → nat → option MinesweeperAI)
    r n i st st' :
  (∀ st r st', rec st r = Some st' → grows st st') →
  subset_loop rec r n i st = Some st' → grows st st'.
Proof.
  intros Hrec. revert i st.
  induction n as [| n IH]; intros i st; simpl;
    destruct (knowledge st !! i) as [ir |];
    try (intros [= <-]; apply grows_refl); try done.
  destruct (Sentence.len (deref st ir) =? 0).
  { intros H. apply IH in H. exact H. }
  destruct (resolve _ _) as [d |]; [| apply IH].
  destruct (rec _ _) as [st2 |] eqn:Hcall; simpl; [| done].
  intros H. apply IH in H. apply Hrec in Hcall.
  eapply grows_trans; [| exact H]. exact Hcall.
Qed.

Lemma check_and_add_sentence_grows fuel st r st' :
  check_and_add_sentence fuel st r = Some st' → grows st st'.
Proof.
  revert st r st'. induction fuel as [| f IH]; intros st r st'; simpl;
    [done |].
  destruct (check_knowledge st) as [st1 |] eqn:Hck; simpl; [| done].
  apply check_knowledge_grows in Hck.
  destruct (knowledge_contains _ _); [by intros [= <-] |].
  destruct (Sentence.len _ =? 0); [by intros [= <-] |].
  destruct (Sentence.known_mines _) as [cs |].
  { intros [= <-]. eapply grows_trans; [exact Hck | apply mark_mines_grows]. }
  destruct (Sentence.known_safes _) as [cs |].
  { intros [= <-]. eapply grows_trans; [exact Hck | apply mark_safes_grows]. }
  intros H. apply subset_loop_grows in H; [| exact IH].
  eapply grows_trans; [exact Hck | exact H].
Qed.

Lemma add_knowledge_grows fuel cell cnt st st' :
  add_knowledge fuel cell cnt st = Some st' → grows st st'.
Proof.
  unfold add_knowledge, alloc. intros H.
  apply check_and_add_sentence_grows in H.
  eapply grows_trans; [| exact H].
  unfold grows. simpl. repeat split; set_solver.
Qed.

End monotonicity.

(** C9: over any sequence of operations, [mines], [safes] and
    [moves_made] only grow: each set of the later state contains the
    corresponding set of the earlier one. *)
Theorem known_sets_only_grow (st st' : MinesweeperAI) :
  rtc kb_step st st' →
  mines st ⊆ mines st' ∧ safes st ⊆ safes st' ∧
  moves_made st ⊆ moves_made st'.
Proof.
  intros Hsteps. change (grows st st').
  induction Hsteps as [st | st1 st2 st3 Hstep _ IH]; [apply grows_refl |].
  eapply grows_trans; [| exact IH].
  destruct Hstep as [fuel cell cnt st1 st2 H | fuel r st1 st2 H | st1 st2 H
                    | c st1 | c st1 | st1 move _].
  - by eapply add_knowledge_grows.
  - by eapply check_and_add_sentence_grows.
  - by apply check_knowledge_grows.
  - apply mark_mine_grows.
  - apply mark_safe_grows.
  - apply grows_refl.
Qed.

(** C9 at a run: an observation followed by a [mark_mine]. *)
Lemma known_sets_only_grow_witness :
  ∃ st, add_knowledge 5 (0, 0) 1 (MinesweeperAI_init 8 8) = Some st ∧
        (mines (MinesweeperAI_init 8 8) ⊆ mines (mark_mine (0, 1) st) ∧
         safes (MinesweeperAI_init 8 8) ⊆ safes (mark_mine (0, 1) st) ∧
         moves_made (MinesweeperAI_init 8 8) ⊆ moves_made (mark_mine (0, 1) st)).
Proof.
  eexists. split; [vm_compute; reflexivity |].
  apply known_sets_only_grow.
  eapply rtc_l.
  - eapply (step_add_knowledge 5 (0, 0) 1). vm_compute. reflexivity.
  - apply rtc_once, step_mark_mine.
Defined.

(** ** Termination of [check_knowledge] *)

Section check_knowledge_facts.

Implicit Types (st : MinesweeperAI) (r : nat) (s : Sentence).
Implicit Types (cs ms ss : gset Cell).

Lemma deref_heap_eq st st' r : heap st' = heap st → deref st' r = deref st r.
Proof. unfold deref. by intros ->. Qed.

Lemma known_mines_Some s cs : Sentence.known_mines s = Some cs → cs = cells s.
Proof.
  unfold Sentence.known_mines.
  destruct (_ =? _); [by intros [= <-] | by destruct (_ =? _)].
Qed.

Lemma known_safes_Some s cs : Sentence.known_safes s = Some cs → cs = cells s.
Proof.
  unfold Sentence.known_safes. destruct (_ =? _); [by intros [= <-] | done].
Qed.

(** [remove] of an empty sentence takes out a reference to an empty
    sentence. *)
Lemma remove_first_nonempty h x k :
  cells x = ∅ →
  filter (λ r, cells (default (Sentence.init ∅ 0) (h !! r)) ≠ ∅)
         (remove_first h x k)
  = filter (λ r, cells (default (Sentence.init ∅ 0) (h !! r)) ≠ ∅) k.
Proof.
  intros Hx. induction k as [| r k IH]; simpl; [done |].
  destruct (Sentence.eq _ x) eqn:E.
  - apply sentence_eq_spec in E. rewrite filter_cons_False; [done |].
    rewrite E. by intros [].
  - rewrite !filter_cons. by rewrite IH.
Qed.

Lemma knowledge_remove_nonempty st x :
  cells x = ∅ → nonempty_refs (knowledge_remove st x) = nonempty_refs st.
Proof. intros H. by apply remove_first_nonempty. Qed.

Lemma remove_first_subseteq h x k : remove_first h x k ⊆ k.
Proof.
  induction k as [| r k IH]; simpl; [done |].
  destruct (Sentence.eq _ x); set_solver.
Qed.

Lemma remove_first_length h x k :
  (length (remove_first h x k) ≤ length k)%nat.
Proof.
  induction k as [| r k IH]; simpl; [done |].
  destruct (Sentence.eq _ x); simpl; lia.
Qed.

Lemma ck_scan_nonempty n i st ms ss upd st' ms' ss' upd' :
  ck_scan n i st ms ss upd = (st', ms', ss', upd') →
  nonempty_refs st' = nonempty_refs st.
Proof.
  revert i st ms ss upd.
  induction n as [| n IH]; intros i st ms ss upd; simpl.
  { by intros [= <- _ _ _]. }
  destruct (knowledge st !! i) as [r |]; [| by intros [= <- _ _ _]].
  destruct (Z.eqb_spec (Sentence.len (deref st r)) 0) as [E | E].
  - intros H. apply IH in H. rewrite H.
    by apply knowledge_remove_nonempty, len_zero_iff.
  - destruct (Sentence.known_mines _), (Sentence.known_safes _);
      intros H; by apply IH in H.
Qed.

Lemma ck_scan_knowledge_subseteq n i st ms ss upd st' ms' ss' upd' :
  ck_scan n i st ms ss upd = (st', ms', ss', upd') →
  knowledge st' ⊆ knowledge st.
Proof.
  revert i st ms ss upd.
  induction n as [| n IH]; intros i st ms ss upd; simpl.
  { by intros [= <- _ _ _]. }
  destruct (knowledge st !! i) as [r |]; [| by intros [= <- _ _ _]].
  destruct (Sentence.len (deref st r) =? 0).
  - intros H. apply IH in H. etrans; [exact H |]. apply remove_first_subseteq.
  - destruct (Sentence.known_mines _), (Sentence.known_safes _);
      intros H; by apply IH in H.
Qed.

(** What the scan has collected when it asks for another pass: all the
    cells of some stored sentence that has cells. *)
Lemma ck_scan_collects n i st ms ss upd st' ms' ss' upd' :
  ck_scan n i st ms ss upd = (st', ms', ss', upd') →
  ms ⊆ ms' ∧ ss ⊆ ss' ∧
  (upd' = true →
   upd = true ∨
   ∃ r, r ∈ nonempty_refs st ∧ cells (deref st r) ⊆ ms' ∪ ss').
Proof.
  revert i st ms ss upd.
  induction n as [| n IH]; intros i st ms ss upd; simpl.
  { intros [= <- <- <- <-]. auto. }
  destruct (knowledge st !! i) as [r |] eqn:Hr;
    [| intros [= <- <- <- <-]; auto].
  destruct (Z.eqb_spec (Sentence.len (deref st r)) 0) as [E | E].
  { intros H. pose proof H as H'. apply IH in H as (? & ? & Hupd).
    repeat split; try done. intros Hu. destruct (Hupd Hu) as [| (r' & Hr' & ?)];
      [by left | right].
    exists r'. split; [| done].
    rewrite knowledge_remove_nonempty in Hr'; [done |].
    by apply len_zero_iff. }
  assert (r ∈ nonempty_refs st) as Hin.
  { apply list_elem_of_filter. split.
    - intros Hc. apply E, len_zero_iff, Hc.
    - by eapply list_elem_of_lookup_2. }
  destruct (Sentence.known_mines _) as [cm |] eqn:Hm,
           (Sentence.known_safes _) as [cf |] eqn:Hf;
    intros H; apply IH in H as (Hms & Hss & Hupd);
    try apply known_mines_Some in Hm as ->;
    try apply known_safes_Some in Hf as ->.
  - repeat split; [set_solver .. |]. intros _. right. exists r. set_solver.
  - repeat split; [set_solver .. |]. intros _. right. exists r. set_solver.
  - repeat split; [set_solver .. |]. intros _. right. exists r. set_solver.
  - repeat split; done.
Qed.

(** A repeating pass empties a stored sentence that had cells. *)
Lemma pass_empties_a_sentence st st1 ms ss :
  ck_scan (length (knowledge st)) 0 st ∅ ∅ false = (st1, ms, ss, true) →
  (length (nonempty_refs (mark_safes ss (mark_mines ms st1)))
   < length (nonempty_refs st))%nat.
Proof.
  intros Hscan.
  pose proof (ck_scan_nonempty _ _ _ _ _ _ _ _ _ _ Hscan) as Hne.
  pose proof (ck_scan_fields _ _ _ _ _ _ _ _ _ _ Hscan) as (Hheap & _).
  apply ck_scan_collects in Hscan as (_ & _ & Hupd).
  destruct (Hupd eq_refl) as [| (r0 & Hr0 & Hsub)]; [done |].
  rewrite <- Hne in Hr0 |- *.
  rewrite <- (deref_heap_eq st st1) in Hsub by done.
  set (st2 := mark_safes ss (mark_mines ms st1)).
  assert (knowledge st2 = knowledge st1) as Hk.
  { unfold st2. destruct (mark_safes_fields ss (mark_mines ms st1)) as [-> _].
    by destruct (mark_mines_fields ms st1) as [-> _]. }
  assert (∀ r, r ∈ knowledge st1 →
               cells (deref st2 r) = cells (deref st1 r) ∖ ms ∖ ss) as Hin.
  { intros r Hr. unfold st2. rewrite mark_safes_cells.
    - by rewrite mark_mines_cells.
    - by destruct (mark_mines_fields ms st1) as [-> _]. }
  assert (∀ r, r ∉ knowledge st1 → deref st2 r = deref st1 r) as Hout.
  { intros r Hr. unfold st2. rewrite mark_safes_notin.
    - by rewrite mark_mines_notin.
    - by destruct (mark_mines_fields ms st1) as [-> _]. }
  unfold nonempty_refs at 1. rewrite Hk.
  rewrite <- (list_filter_filter_l _ (λ r, cells (deref st1 r) ≠ ∅)).
  - fold (nonempty_refs st1).
    apply (length_filter_lt _ _ r0); [done |].
    apply list_elem_of_filter in Hr0 as [_ Hr0].
    rewrite Hin by done. intros Hc. apply Hc. set_solver.
  - intros r. destruct (decide (r ∈ knowledge st1)) as [Hr | Hr].
    + rewrite Hin by done. set_solver.
    + by rewrite Hout.
Qed.



End check_knowledge_facts.

(** ** Settled states *)

Section settled_facts.

Implicit Types (st : MinesweeperAI) (r : nat) (s : Sentence).

Lemma nontrivial_known_mines s : nontrivial s → Sentence.known_mines s = None.
Proof.
  intros (_ & H & _). unfold Sentence.known_mines.
  destruct (Z.eqb_spec (Sentence.len s) (count s)); [done |].
  by destruct (count s =? 0).
Qed.

Lemma nontrivial_known_safes s : nontrivial s → Sentence.known_safes s = None.
Proof.
  intros (_ & _ & H). unfold Sentence.known_safes.
  by destruct (Z.eqb_spec (count s) 0).
Qed.

Lemma ck_scan_settled n i st ms ss upd :
  settled st → ck_scan n i st ms ss upd = (st, ms, ss, upd).
Proof.
  intros Hst. revert i. induction n as [| n IH]; intros i; simpl; [done |].
  destruct (knowledge st !! i) as [r |] eqn:Hr; [| done].
  apply list_elem_of_lookup_2, Hst in Hr.
  rewrite (nontrivial_known_mines _ Hr), (nontrivial_known_safes _ Hr).
  destruct Hr as (Hlen & _).
  destruct (Z.eqb_spec (Sentence.len (deref st r)) 0); [done | apply IH].
Qed.

(** On a settled state [check_knowledge] changes nothing. *)
Lemma check_knowledge_settled st : settled st → check_knowledge st = Some st.
Proof.
  intros Hst. unfold check_knowledge. simpl. by rewrite ck_scan_settled.
Qed.

(** [check_knowledge] only ever takes cells out of sentences. *)
Lemma check_knowledge_fuel_cells fuel st st' r :
  check_knowledge_fuel fuel st = Some st' →
  cells (deref st' r) ⊆ cells (deref st r).
Proof.
  revert st. induction fuel as [| f IH]; intros st; simpl; [done |].
  destruct (ck_scan _ _ _ _ _ _) as [[[st1 ms] ss] upd] eqn:Hscan.
  apply ck_scan_fields in Hscan as (Hheap & _).
  rewrite <- (deref_heap_eq st st1) by done.
  destruct upd; [| by intros [= <-]].
  intros H. apply IH in H. etrans; [exact H |].
  destruct (mark_mines_fields ms st1) as [Hk _].
  destruct (decide (r ∈ knowledge st1)) as [Hr | Hr].
  - rewrite mark_safes_cells by (by rewrite Hk).
    rewrite mark_mines_cells by done. set_solver.
  - rewrite mark_safes_notin by (by rewrite Hk).
    by rewrite mark_mines_notin.
Qed.

Lemma check_knowledge_cells st st' r :
  check_knowledge st = Some st' → cells (deref st' r) ⊆ cells (deref st r).
Proof. apply check_knowledge_fuel_cells. Qed.

End settled_facts.

(** ** Steps of the subset loop *)

Section loop_steps.

Implicit Types (st : MinesweeperAI) (r : nat) (s d : Sentence).

Lemma active_lookup st i s :
  active st !! i = Some s → ∃ r, knowledge st !! i = Some r ∧ deref st r = s.
Proof.
  unfold active. rewrite list_lookup_fmap.
  destruct (knowledge st !! i) as [r |]; [| done].
  intros [= <-]. by exists r.
Qed.

Lemma active_elem_of st s :
  s ∈ active st ↔ ∃ r, r ∈ knowledge st ∧ deref st r = s.
Proof.
  unfold active. rewrite list_elem_of_fmap. naive_solver.
Qed.

(** Creating an object leaves the stored sentences as they are, provided
    the knowledge list holds live references. *)
Lemma active_alloc st d :
  (∀ s, s ∈ active st → cells s ≠ ∅) →
  active (fst (alloc st d)) = active st.
Proof.
  intros Hne. unfold active. cbn [alloc fst knowledge set_heap].
  apply list_fmap_ext. intros i r Hr.
  apply (deref_alloc_old st d), deref_cells_valid, Hne, active_elem_of.
  exists r. split; [by eapply list_elem_of_lookup_2 | done].
Qed.

Lemma active_append st r :
  active (set_knowledge st (knowledge st ++ [r])) = active st ++ [deref st r].
Proof. unfold active. cbn [knowledge set_knowledge]. by rewrite fmap_app. Qed.

(** One iteration of the subset loop at a sentence with cells. *)
Lemma subset_loop_step (rec : MinesweeperAI → nat → option MinesweeperAI)
    r n i st ir :
  knowledge st !! i = Some ir →
  cells (deref st ir) ≠ ∅ →
  subset_loop rec r (S n) i st =
    match resolve (deref st ir) (deref st r) with
    | Some d =>
        st' ← rec (fst (alloc st d)) (snd (alloc st d));
        subset_loop rec r n (S i) st'
    | None => subset_loop rec r n (S i) st
    end.
Proof.
  intros Hi Hne. cbn [subset_loop]. rewrite Hi.
  destruct (Z.eqb_spec (Sentence.len (deref st ir)) 0) as [E | _].
  { by apply len_zero_iff in E. }
  by destruct (resolve _ _).
Qed.

Lemma subset_loop_no_fuel (rec : MinesweeperAI → nat → option MinesweeperAI)
    r i st ir :
  knowledge st !! i = Some ir → subset_loop rec r 0 i st = None.
Proof. intros Hi. cbn [subset_loop]. by rewrite Hi. Qed.

End loop_steps.

(** ** The subset loop *)

Section subset_loop_facts.

Implicit Types (st : MinesweeperAI) (r : nat) (s : Sentence).

Lemma resolve_self s : resolve s s = Some (Sentence.init ∅ 0).
Proof.
  unfold resolve. rewrite decide_True by done.
  by rewrite difference_diag_L, Z.sub_diag.
Qed.

Lemma knowledge_contains_spec st s :
  knowledge_contains st s = true ↔ ∃ r, r ∈ knowledge st ∧ deref st r = s.
Proof.
  unfold knowledge_contains. rewrite existsb_exists. split.
  - intros (r & Hr & E). exists r. split; [by apply list_elem_of_In |].
    by apply sentence_eq_spec.
  - intros (r & Hr & E). exists r. split; [by apply list_elem_of_In |].
    by apply sentence_eq_spec.
Qed.

(** A candidate without cells is dropped after the [check_knowledge]
    pass. *)
Lemma check_and_add_sentence_empty f st r :
  cells (deref st r) = ∅ →
  check_and_add_sentence (S f) st r = check_knowledge st.
Proof.
  intros Hr. simpl. destruct (check_knowledge st) as [st1 |] eqn:Hck; [| done].
  simpl. apply (check_knowledge_cells _ _ r) in Hck. rewrite Hr in Hck.
  assert (cells (deref st1 r) = ∅) as Hr1 by set_solver.
  apply len_zero_iff in Hr1. rewrite Hr1. simpl.
  by destruct (knowledge_contains _ _).
Qed.

End subset_loop_facts.

(** C7: the knowledge base of a fresh player holds no sentence, yet
    storing [{(0,1),(1,0),(1,1)} = 1] makes the subset loop construct
    [Sentence(∅, 0)], the difference of the stored sentence with itself:
    the loop runs over the list that already holds the new sentence. *)
Lemma sentence_compared_with_itself :
  ∃ st, add_knowledge 2 (0, 0) 1 (MinesweeperAI_init 8 8) = Some st ∧
        knowledge st = [0%nat] ∧
        heap st = [ Sentence.init {[ (0, 1); (1, 0); (1, 1) ]} 1;
                    Sentence.init ∅ 0 ].
Proof.
  eexists. split; [vm_compute; reflexivity |]. split; by vm_compute.
Qed.

(** C7, as the code has it: when the subset loop reaches the entry of the
    stored sentence itself (and it still has cells), it derives the
    sentence with no cells and count 0, and the recursive call on that
    does a [check_knowledge] pass and drops it. *)
Theorem self_comparison_is_vacuous (f n i r : nat) (st : MinesweeperAI) :
  knowledge st !! i = Some r →
  Sentence.len (deref st r) ≠ 0 →
  subset_loop (check_and_add_sentence (S f)) r (S n) i st =
    st' ← check_knowledge (fst (alloc st (Sentence.init ∅ 0)));
    subset_loop (check_and_add_sentence (S f)) r n (S i) st'.
Proof.
  intros Hi Hlen. cbn [subset_loop]. rewrite Hi.
  destruct (Z.eqb_spec (Sentence.len (deref st r)) 0); [done |].
  rewrite resolve_self. cbn [alloc fst].
  rewrite check_and_add_sentence_empty; [done |].
  pose proof (deref_alloc_new st (Sentence.init ∅ 0)) as E.
  cbn [alloc fst snd] in E. by rewrite E.
Qed.

(** C7 at the state in which a fresh player has just stored its first
    sentence. *)
Lemma self_comparison_is_vacuous_witness :
  let s := Sentence.init {[ (0, 1); (1, 0); (1, 1) ]} 1 in
  let st := set_knowledge (fst (alloc (MinesweeperAI_init 8 8) s)) [0%nat] in
  subset_loop (check_and_add_sentence 1) 0 1 0 st =
    st' ← check_knowledge (fst (alloc st (Sentence.init ∅ 0)));
    subset_loop (check_and_add_sentence 1) 0 0 1 st'.
Proof.
  intros s st.
  apply (self_comparison_is_vacuous 0 0 0 0 st); [reflexivity | by vm_compute].
Defined.

Lemma duplicate_candidate_discarded_aux (f r r' : nat)
    (st st1 : MinesweeperAI) :
  check_knowledge st = Some st1 →
  r' ∈ knowledge st1 →
  deref st1 r' = deref st1 r →
  check_and_add_sentence (S f) st r = Some st1.
Proof.
  intros Hck Hr' E. simpl. rewrite Hck. simpl.
  assert (knowledge_contains st1 (deref st1 r) = true) as ->; [| done].
  apply knowledge_contains_spec. by exists r'.
Qed.

(** C6, as the code has it.  Once [check_knowledge] has run, a candidate
    that has the value of a stored sentence is not stored: the call returns
    the state [check_knowledge] left.  A candidate that is stored (it has
    cells and is neither all mines nor all safe) has the value of no
    stored sentence, so storing it keeps the stored values distinct if
    they were. *)
Theorem duplicate_candidate_discarded (f r : nat) (st st1 : MinesweeperAI) :
  check_knowledge st = Some st1 →
  ((∃ r', r' ∈ knowledge st1 ∧ deref st1 r' = deref st1 r) →
   check_and_add_sentence (S f) st r = Some st1) ∧
  ((¬ ∃ r', r' ∈ knowledge st1 ∧ deref st1 r' = deref st1 r) →
   nontrivial (deref st1 r) →
   let st2 := set_knowledge st1 (knowledge st1 ++ [r]) in
   check_and_add_sentence (S f) st r
   = subset_loop (check_and_add_sentence f) r f 0 st2 ∧
   (NoDup (active st1) → NoDup (active st2))).
Proof.
  intros Hck. cbn [check_and_add_sentence]. rewrite Hck.
  cbn [mbind option_bind]. split.
  - intros Hdup. apply knowledge_contains_spec in Hdup. by rewrite Hdup.
  - intros Hnew Hnt. cbv zeta.
    destruct (knowledge_contains st1 (deref st1 r)) eqn:Hc.
    { by apply knowledge_contains_spec in Hc. }
    rewrite (nontrivial_known_mines _ Hnt), (nontrivial_known_safes _ Hnt).
    destruct Hnt as (Hlen & _).
    destruct (Z.eqb_spec (Sentence.len (deref st1 r)) 0); [done |].
    split; [done |]. intros Hnd. rewrite active_append.
    apply NoDup_app. split; [done |]. split; [| apply NoDup_singleton].
    intros s Hs Hs'. apply list_elem_of_singleton in Hs' as ->.
    apply Hnew, active_elem_of, Hs.
Qed.

(** C6 at a player that holds [{(0,1),(1,0)} = 1] and is given that
    sentence again, and at the same player given [{(0,0),(0,1)} = 1]. *)
Lemma duplicate_candidate_discarded_witness :
  let s := Sentence.init {[ (0, 1); (1, 0) ]} 1 in
  let t := Sentence.init {[ (0, 0); (0, 1) ]} 1 in
  let st := {| height := 8; width := 8; moves_made := ∅; mines := ∅;
               safes := ∅; heap := [s; s; t]; knowledge := [0%nat] |} in
  check_and_add_sentence 1 st 1 = Some st ∧
  NoDup (active (set_knowledge st [0; 2]%nat)).
Proof.
  intros s t st.
  assert (check_knowledge st = Some st) as Hck by (by vm_compute).
  split.
  - apply (duplicate_candidate_discarded 0 1 st st Hck).
    exists 0%nat. split; [by_compute | reflexivity].
  - apply (duplicate_candidate_discarded 0 2 st st Hck).
    + intros (r' & Hr' & E). apply list_elem_of_singleton in Hr' as ->.
      revert E. by vm_compute.
    + repeat split; by_compute.
    + by_compute.
Defined.

(** ** A run of [check_and_add_sentence] that does not return *)

Section chain_facts.

Lemma size_U8 : size U8 = 8%nat.
Proof. by vm_compute. Qed.
Lemma size_A4 : size A4 = 4%nat.
Proof. by vm_compute. Qed.
Lemma size_B4 : size B4 = 4%nat.
Proof. by vm_compute. Qed.
Lemma A4_sub_U8 : A4 ⊆ U8.
Proof. by_compute. Qed.
Lemma B4_sub_U8 : B4 ⊆ U8.
Proof. by_compute. Qed.
Lemma U8_not_sub_A4 : ¬ U8 ⊆ A4.
Proof. by_compute. Qed.
Lemma U8_not_sub_B4 : ¬ U8 ⊆ B4.
Proof. by_compute. Qed.
Lemma U8_minus_A4 : U8 ∖ A4 = B4.
Proof. by vm_compute. Qed.
Lemma U8_minus_B4 : U8 ∖ B4 = A4.
Proof. by vm_compute. Qed.
Lemma A4_neq_B4 : A4 ≠ B4.
Proof. by_compute. Qed.
Lemma A4_neq_U8 : A4 ≠ U8.
Proof. by_compute. Qed.
Lemma B4_neq_U8 : B4 ≠ U8.
Proof. by_compute. Qed.

Lemma chain_cells m : cells (chain m) = A4 ∨ cells (chain m) = B4.
Proof. unfold chain. destruct (Nat.even m); auto. Qed.

Lemma chain_nontrivial m : nontrivial (chain m).
Proof.
  unfold nontrivial, chain, Sentence.len.
  destruct (Nat.even m); cbn [cells count Sentence.init];
    rewrite ?size_A4, ?size_B4; lia.
Qed.

Lemma U8_nontrivial n : n = 1 ∨ n = 7 → nontrivial (Sentence.init U8 n).
Proof.
  unfold nontrivial, Sentence.len. cbn [cells count Sentence.init].
  rewrite size_U8. lia.
Qed.

Lemma nontrivial_cells s : nontrivial s → cells s ≠ ∅.
Proof. intros [H _] E. by apply H, len_zero_iff. Qed.

Lemma chain_inj i j : chain i = chain j → i = j.
Proof.
  unfold chain.
  destruct (Nat.even i), (Nat.even j); intros H.
  - apply (f_equal count) in H. cbn in H. lia.
  - apply (f_equal cells) in H. by destruct A4_neq_B4.
  - apply (f_equal cells) in H. by destruct A4_neq_B4.
  - apply (f_equal count) in H. cbn in H. lia.
Qed.

Lemma chain_neq_U8 m n : chain m ≠ Sentence.init U8 n.
Proof.
  unfold chain. destruct (Nat.even m); intros H.
  - apply (f_equal cells) in H. by destruct A4_neq_U8.
  - apply (f_equal cells) in H. by destruct B4_neq_U8.
Qed.

(** Resolving against [{U8} = 1] gives the next sentence of the chain at an
    even index and the one before at an odd index. *)
Lemma resolve_U8_1_even m :
  Nat.even m = true →
  resolve (Sentence.init U8 1) (chain m) = Some (chain (S m)).
Proof.
  intros E. unfold chain. rewrite Nat.even_succ, <- Nat.negb_even, E.
  unfold resolve. cbn [cells count Sentence.init negb].
  rewrite decide_False by apply U8_not_sub_A4.
  rewrite decide_True by apply A4_sub_U8.
  rewrite U8_minus_A4. do 2 f_equal. lia.
Qed.

Lemma resolve_U8_1_odd m :
  Nat.even (S m) = false →
  resolve (Sentence.init U8 1) (chain (S m)) = Some (chain m).
Proof.
  intros E. unfold chain. rewrite E.
  rewrite Nat.even_succ, <- Nat.negb_even in E.
  apply negb_false_iff in E. rewrite E.
  unfold resolve. cbn [cells count Sentence.init].
  rewrite decide_False by apply U8_not_sub_B4.
  rewrite decide_True by apply B4_sub_U8.
  rewrite U8_minus_B4. do 2 f_equal. lia.
Qed.

Lemma resolve_U8_7_odd m :
  Nat.even m = false →
  resolve (Sentence.init U8 7) (chain m) = Some (chain (S m)).
Proof.
  intros E. unfold chain. rewrite Nat.even_succ, <- Nat.negb_even, E.
  unfold resolve. cbn [cells count Sentence.init negb].
  rewrite decide_False by apply U8_not_sub_B4.
  rewrite decide_True by apply B4_sub_U8.
  rewrite U8_minus_B4. do 2 f_equal. lia.
Qed.

End chain_facts.

Section chain_run.

Implicit Types (st : MinesweeperAI) (r m : nat) (s d : Sentence).

Lemma chain_state_elem m st s :
  chain_state m st → s ∈ active st →
  s = Sentence.init U8 1 ∨ s = Sentence.init U8 7 ∨
  ∃ j, (j < m)%nat ∧ s = chain j.
Proof.
  intros -> Hs. apply elem_of_cons in Hs as [-> | Hs]; [by left |].
  apply elem_of_cons in Hs as [-> | Hs]; [by right; left |].
  right; right. apply list_elem_of_fmap in Hs as (j & -> & Hj).
  apply elem_of_seq in Hj. exists j. split; [lia | done].
Qed.

Lemma chain_state_nontrivial m st s :
  chain_state m st → s ∈ active st → nontrivial s.
Proof.
  intros Hst Hs.
  destruct (chain_state_elem _ _ _ Hst Hs) as [-> | [-> | (j & _ & ->)]].
  - apply U8_nontrivial. by left.
  - apply U8_nontrivial. by right.
  - apply chain_nontrivial.
Qed.

Lemma chain_state_settled m st : chain_state m st → settled st.
Proof.
  intros Hst r Hr. apply (chain_state_nontrivial m st); [done |].
  apply active_elem_of. by exists r.
Qed.

Lemma chain_state_nonempty m st s :
  chain_state m st → s ∈ active st → cells s ≠ ∅.
Proof. intros Hst Hs. by eapply nontrivial_cells, chain_state_nontrivial. Qed.

Lemma chain_state_fresh m st : chain_state m st → chain m ∉ active st.
Proof.
  intros Hst Hs.
  destruct (chain_state_elem _ _ _ Hst Hs) as [E | [E | (j & Hj & E)]].
  - by apply chain_neq_U8 in E.
  - by apply chain_neq_U8 in E.
  - apply chain_inj in E. lia.
Qed.

Lemma chain_state_alloc m st d :
  chain_state m st → chain_state m (fst (alloc st d)).
Proof.
  intros Hst. unfold chain_state. rewrite active_alloc; [done |].
  intros s. by apply chain_state_nonempty with m.
Qed.

Lemma chain_state_append m st r :
  chain_state m st → deref st r = chain m →
  chain_state (S m) (set_knowledge st (knowledge st ++ [r])).
Proof.
  intros Hst Hr. unfold chain_state. rewrite active_append, Hst, Hr.
  by rewrite seq_S, fmap_app.
Qed.

(** A candidate that is already stored: the recursive call returns the
    state it was given. *)
Lemma chain_state_duplicate f m j st r :
  chain_state m st → (j < m)%nat → deref st r = chain j →
  check_and_add_sentence (S f) st r = Some st.
Proof.
  intros Hst Hj Hr.
  assert (chain j ∈ active st) as Hin.
  { rewrite Hst. do 2 apply list_elem_of_further.
    apply list_elem_of_fmap. exists j. split; [done |].
    apply elem_of_seq. lia. }
  apply active_elem_of in Hin as (r' & Hr' & E).
  apply (duplicate_candidate_discarded_aux f r r'); [| done | congruence].
  by eapply check_knowledge_settled, chain_state_settled.
Qed.

(** From a chain state, adding the next sentence of the chain runs out of
    any amount of fuel: it calls itself on the sentence after. *)
Lemma chain_never_returns fuel m st r :
  chain_state m st → deref st r = chain m →
  check_and_add_sentence fuel st r = None.
Proof.
  revert m st r. induction fuel as [| f IH]; intros m st r Hst Hr; [done |].
  cbn [check_and_add_sentence].
  rewrite (check_knowledge_settled st) by (by eapply chain_state_settled).
  cbn [mbind option_bind]. rewrite Hr.
  destruct (knowledge_contains st (chain m)) eqn:Hc.
  { apply knowledge_contains_spec in Hc.
    by apply active_elem_of, chain_state_fresh in Hc. }
  pose proof (chain_nontrivial m) as Hnt.
  rewrite (nontrivial_known_mines _ Hnt), (nontrivial_known_safes _ Hnt).
  destruct (Z.eqb_spec (Sentence.len (chain m)) 0) as [E | _].
  { by destruct Hnt as [? _]. }
  set (st1 := set_knowledge st (knowledge st ++ [r])).
  assert (chain_state (S m) st1) as Hst1 by (by apply chain_state_append).
  assert (deref st1 r = chain m) as Hr1 by done.
  destruct (active_lookup st1 0 (Sentence.init U8 1)) as (iy & Hiy & Ey).
  { by rewrite Hst1. }
  destruct f as [| n]; [by eapply subset_loop_no_fuel |].
  rewrite (subset_loop_step _ r n 0 st1 iy) by
    (done || rewrite Ey; apply nontrivial_cells, U8_nontrivial; by left).
  rewrite Ey, Hr1.
  destruct (Nat.even m) eqn:Em.
  - (* even index: the sentence derived from [{U8} = 1] is new *)
    rewrite resolve_U8_1_even by done.
    rewrite (IH (S m)); [done | by apply chain_state_alloc |].
    apply deref_alloc_new.
  - (* odd index: that sentence is stored already, the one derived from
       [{U8} = 7] is new *)
    destruct m as [| m0]; [done |].
    rewrite resolve_U8_1_odd by done.
    set (st2 := fst (alloc st1 (chain m0))).
    assert (chain_state (S (S m0)) st2) as Hst2 by (by apply chain_state_alloc).
    rewrite (chain_state_duplicate n (S (S m0)) m0) by
      (done || lia || apply deref_alloc_new).
    cbn [mbind option_bind].
    destruct (active_lookup st2 1 (Sentence.init U8 7)) as (iz & Hiz & Ez).
    { by rewrite Hst2. }
    destruct n as [| n']; [by eapply subset_loop_no_fuel |].
    rewrite (subset_loop_step _ r n' 1 st2 iz) by
      (done || rewrite Ez; apply nontrivial_cells, U8_nontrivial; by right).
    assert (deref st2 r = chain (S m0)) as Hr2.
    { unfold st2. rewrite deref_alloc_old; [done |].
      apply deref_cells_valid. rewrite Hr1.
      apply nontrivial_cells, chain_nontrivial. }
    rewrite Ez, Hr2, resolve_U8_7_odd by done.
    rewrite (IH (S (S m0))); [done | by apply chain_state_alloc |].
    apply deref_alloc_new.
Qed.

End chain_run.

(** A run that does not return, on a square board: a 3×3 player is told
    that [(1,1)] has one adjacent mine, then that it has seven, which is
    true of no board.  It now stores [{U8} = 1] and [{U8} = 7]; each has a
    count between 0 and its number of cells, the two differ by value, and
    no cell of theirs is a confirmed mine or safe cell.  Observing
    [(0,1)] with count 2 adds [{A4} = 2], from which the subset loop
    derives [{B4} = -1], from which it derives [{A4} = 8], and so on:
    [add_knowledge] runs out of every amount of fuel. *)
Lemma add_knowledge_never_returns :
  ∃ st, play 5 [((1, 1), 1); ((1, 1), 7)] (MinesweeperAI_init 3 3) = Some st ∧
        active st = [ Sentence.init U8 1; Sentence.init U8 7 ] ∧
        mines st = ∅ ∧ safes st = {[ (1, 1) ]} ∧
        ∀ fuel, add_knowledge fuel (0, 1) 2 st = None.
Proof.
  eexists. split; [vm_compute; reflexivity |].
  split; [by vm_compute |]. split; [by vm_compute |].
  split; [by vm_compute |].
  intros fuel. unfold add_knowledge. cbn [alloc].
  apply (chain_never_returns fuel 0); by vm_compute.
Qed.

(** ** What a pass of [check_knowledge] and a resolution step achieve *)

Section progress.

Implicit Types (st : MinesweeperAI) (r : nat) (s d : Sentence).
Implicit Types (ms ss : gset Cell).



End progress.

(** Without the condition of [pass_confirms_a_cell]: on the 2×2 board with
    its mine at [(1,1)], after observing [(0,0)], [(0,1)] and [(1,0)] the
    knowledge holds [{(1,0)} = 0] twice while [(1,0)] is in [safes]
    already.  The next pass of [check_knowledge] asks for another pass,
    removes no sentence and confirms no new cell. *)
Lemma pass_without_new_cell :
  ∃ st st1 ms ss,
    play 5 [((0, 0), 1); ((0, 1), 1); ((1, 0), 1)] (MinesweeperAI_init 2 2) = Some st ∧
    ck_scan (length (knowledge st)) 0 st ∅ ∅ false = (st1, ms, ss, true) ∧
    knowledge st1 = knowledge st ∧
    mines (mark_safes ss (mark_mines ms st1)) = mines st ∧
    safes (mark_safes ss (mark_mines ms st1)) = safes st.
Proof.
  do 4 eexists. split; [vm_compute; reflexivity |].
  split; [vm_compute; reflexivity |]. repeat split; by vm_compute.
Qed.

(** Without the second condition of [resolve_strictly_smaller]: the
    candidate [{(0,0),(0,1)} = 1] is stored at address 5, marks it causes
    empty it while its subset loop is running, and the loop then derives
    from it and the stored sentence [{(6,0),(6,1)} = 1] a sentence with
    the very cells of the latter (address 8). *)
Lemma derived_sentence_not_smaller :
  let st := {| height := 8; width := 8; moves_made := ∅; mines := ∅;
               safes := ∅;
               heap := [ Sentence.init {[ (0, 0); (0, 1); (0, 2) ]} 1;
                         Sentence.init {[ (0, 0); (0, 2) ]} 1;
                         Sentence.init {[ (2, 0); (2, 1) ]} 1;
                         Sentence.init {[ (4, 0); (4, 1) ]} 1;
                         Sentence.init {[ (6, 0); (6, 1) ]} 1;
                         Sentence.init {[ (0, 0); (0, 1) ]} 1 ];
               knowledge := [0; 1; 2; 3; 4]%nat |} in
  ∃ st', check_and_add_sentence 5 st 5 = Some st' ∧
         knowledge st' = [2; 3; 4]%nat ∧
         deref st' 5 = Sentence.init ∅ 0 ∧
         deref st' 4 = Sentence.init {[ (6, 0); (6, 1) ]} 1 ∧
         deref st' 8 = Sentence.init {[ (6, 0); (6, 1) ]} 1 ∧
         length (heap st') = 9%nat.
Proof.
  eexists. split; [vm_compute; reflexivity |]. repeat split; by vm_compute.
Qed.



(** ** Fuel *)

Section fuel_facts.

Implicit Types (st : MinesweeperAI) (r : nat).

(** The scan of [check_knowledge] is over once its index has reached the
    end of the list: [length (knowledge st)] iterations are enough. *)
Lemma ck_scan_enough n i st ms ss upd :
  (length (knowledge st) ≤ i + n)%nat →
  ck_scan (S n) i st ms ss upd = ck_scan n i st ms ss upd.
Proof.
  revert i st ms ss upd.
  induction n as [| n IH]; intros i st ms ss upd Hlen.
  { cbn [ck_scan]. rewrite lookup_ge_None_2 by lia. done. }
  cbn [ck_scan] in *.
  destruct (knowledge st !! i) as [r |]; [| done].
  destruct (Sentence.len (deref st r) =? 0).
  - apply IH. cbn [knowledge knowledge_remove set_knowledge].
    pose proof (remove_first_length (heap st) (deref st r) (knowledge st)).
    lia.
  - destruct (Sentence.known_mines _), (Sentence.known_safes _);
      apply IH; lia.
Qed.



End fuel_facts.

(** ** A subset loop that never ends *)

Section drift.

Implicit Types (st : MinesweeperAI) (r dr i : nat) (c e : Z) (cs : list Z).










End drift.

Section drift_run.

Implicit Types (st : MinesweeperAI) (r : nat).







End drift_run.


(** ** The resolution rule *)

Section resolve_facts.

Implicit Types (info sentence d : Sentence) (layout : gset Cell).

(** The sentence the subset loop derives from a pair. *)
Lemma resolve_subset info sentence :
  cells info ⊆ cells sentence →
  resolve info sentence
  = Some (Sentence.init (cells sentence ∖ cells info)
                        (count sentence - count info)).
Proof. intros H. unfold resolve. by rewrite decide_True. Qed.

Lemma resolve_superset info sentence :
  cells sentence ⊂ cells info →
  resolve info sentence
  = Some (Sentence.init (cells info ∖ cells sentence)
                        (count info - count sentence)).
Proof.
  intros [H1 H2]. unfold resolve.
  rewrite decide_False by done. by rewrite decide_True.
Qed.

Lemma holds_difference layout (a b : gset Cell) :
  a ⊆ b →
  Z.of_nat (size ((b ∖ a) ∩ layout))
  = Z.of_nat (size (b ∩ layout)) - Z.of_nat (size (a ∩ layout)).
Proof.
  intros Hab.
  assert ((b ∖ a) ∩ layout = (b ∩ layout) ∖ (a ∩ layout)) as -> by set_solver.
  rewrite size_difference by set_solver.
  assert (size (a ∩ layout) ≤ size (b ∩ layout))%nat
    by (apply subseteq_size; set_solver).
  lia.
Qed.

(** The derived sentence is true of every board of which the two
    sentences it comes from are true. *)
Lemma resolve_sound layout info sentence d :
  holds layout info → holds layout sentence →
  resolve info sentence = Some d → holds layout d.
Proof.
  unfold holds, resolve. intros Hi Hs.
  destruct (decide (cells info ⊆ cells sentence)) as [Hsub | _].
  { intros [= <-]. cbn [cells count Sentence.init].
    rewrite holds_difference by done. lia. }
  destruct (decide (cells sentence ⊆ cells info)) as [Hsub | _]; [| done].
  intros [= <-]. cbn [cells count Sentence.init].
  rewrite holds_difference by done. lia.
Qed.

End resolve_facts.

(** The scenario of C3 on a knowledge base that holds one sentence, in
    both orders: [{a,b,c} = 1] stored and [{a,b} = 1] added, and the other
    way round, with [a = (0,0)], [b = (0,1)], [c = (0,2)]. *)
Lemma subset_scenario_marks_safe :
  let ab := Sentence.init {[ (0, 0); (0, 1) ]} 1 in
  let abc := Sentence.init {[ (0, 0); (0, 1); (0, 2) ]} 1 in
  let kb (stored candidate : Sentence) :=
    {| height := 8; width := 8; moves_made := ∅; mines := ∅; safes := ∅;
       heap := [stored; candidate]; knowledge := [0%nat] |} in
  (∃ st, check_and_add_sentence 5 (kb abc ab) 1 = Some st ∧
         (0, 2) ∈ safes st ∧
         heap st !! 2%nat = Some (Sentence.init {[ (0, 2) ]} 0)) ∧
  (∃ st, check_and_add_sentence 5 (kb ab abc) 1 = Some st ∧
         (0, 2) ∈ safes st ∧
         heap st !! 2%nat = Some (Sentence.init {[ (0, 2) ]} 0)).
Proof.
  split; eexists; (split; [vm_compute; reflexivity |]);
    (split; [by_compute | by vm_compute]).
Qed.

(** ** Marking twice, and in another order *)

Section mark_order.

Implicit Types (st : MinesweeperAI) (r : nat) (c : Cell) (s : Sentence).
Implicit Types (f g : Sentence → Sentence).

Lemma iter_shift f n s : Nat.iter n f (f s) = f (Nat.iter n f s).
Proof. induction n as [| n IH]; simpl; [done | by rewrite IH]. Qed.

(** The object at [r] after [for sentence in k: sentence.f()]: [f] has been
    applied as many times as [r] occurs in [k]. *)
Lemma alter_all_lookup f h k r :
  alter_all f h k !! r
  = Nat.iter (length (filter (λ r', r' = r) k)) f <$> h !! r.
Proof.
  revert h. induction k as [| r' k IH]; intros h.
  { simpl. by destruct (h !! r). }
  unfold alter_all in *. cbn [foldl]. rewrite IH, filter_cons.
  destruct (decide (r' = r)) as [-> | Hne].
  - rewrite list_lookup_alter_eq. destruct (h !! r); simpl; [| done].
    by rewrite iter_shift.
  - by rewrite list_lookup_alter_ne.
Qed.

Lemma iter_idempotent f n s :
  (∀ s, f (f s) = f s) → Nat.iter n f (Nat.iter n f s) = Nat.iter n f s.
Proof.
  intros Hf. destruct n as [| n]; [done |].
  assert (∀ m x, Nat.iter (S m) f x = f x) as Hone.
  { induction m as [| m IH]; intros x; [done |].
    change (f (Nat.iter (S m) f x) = f x). by rewrite IH. }
  by rewrite !Hone.
Qed.

Lemma iter_commute f g n m s :
  (∀ s, f (g s) = g (f s)) →
  Nat.iter n f (Nat.iter m g s) = Nat.iter m g (Nat.iter n f s).
Proof.
  intros Hfg. induction n as [| n IH]; [done |]. simpl. rewrite IH.
  clear IH. induction m as [| m IH]; [done |]. simpl. by rewrite Hfg, IH.
Qed.

Lemma alter_all_idempotent f h k :
  (∀ s, f (f s) = f s) → alter_all f (alter_all f h k) k = alter_all f h k.
Proof.
  intros Hf. apply list_eq. intros r. rewrite !alter_all_lookup.
  destruct (h !! r); simpl; [| done]. by rewrite iter_idempotent.
Qed.

Lemma alter_all_commute f g h k :
  (∀ s, f (g s) = g (f s)) →
  alter_all f (alter_all g h k) k = alter_all g (alter_all f h k) k.
Proof.
  intros Hfg. apply list_eq. intros r. rewrite !alter_all_lookup.
  destruct (h !! r); simpl; [| done]. by rewrite iter_commute.
Qed.

Lemma sentence_ext (a b : Sentence) :
  cells a = cells b → count a = count b → a = b.
Proof. destruct a, b. simpl. by intros -> ->. Qed.

Lemma sentence_mark_mine_idempotent c s :
  Sentence.mark_mine c (Sentence.mark_mine c s) = Sentence.mark_mine c s.
Proof.
  unfold Sentence.mark_mine at 2 3.
  destruct (decide (c ∈ cells s)); unfold Sentence.mark_mine.
  - rewrite decide_False; [done |]. simpl. set_solver.
  - by rewrite decide_False.
Qed.

Lemma sentence_mark_safe_idempotent c s :
  Sentence.mark_safe c (Sentence.mark_safe c s) = Sentence.mark_safe c s.
Proof.
  unfold Sentence.mark_safe at 2 3.
  destruct (decide (c ∈ cells s)); unfold Sentence.mark_safe.
  - rewrite decide_False; [done |]. simpl. set_solver.
  - by rewrite decide_False.
Qed.

Lemma sentence_mark_mine_commute c1 c2 s :
  Sentence.mark_mine c1 (Sentence.mark_mine c2 s)
  = Sentence.mark_mine c2 (Sentence.mark_mine c1 s).
Proof.
  destruct (decide (c1 = c2)) as [-> | Hne]; [done |].
  apply sentence_ext.
  - rewrite !mark_mine_cells. set_solver.
  - unfold Sentence.mark_mine.
    destruct (decide (c1 ∈ cells s)), (decide (c2 ∈ cells s)); simpl;
      repeat (first [rewrite decide_True by set_solver
                    | rewrite decide_False by set_solver]); simpl; lia.
Qed.

Lemma sentence_mark_safe_commute c1 c2 s :
  Sentence.mark_safe c1 (Sentence.mark_safe c2 s)
  = Sentence.mark_safe c2 (Sentence.mark_safe c1 s).
Proof.
  apply sentence_ext.
  - rewrite !mark_safe_cells. set_solver.
  - unfold Sentence.mark_safe. by repeat destruct (decide _).
Qed.

Lemma mark_mine_commute c1 c2 st :
  mark_mine c1 (mark_mine c2 st) = mark_mine c2 (mark_mine c1 st).
Proof.
  unfold mark_mine, update_all, set_heap. cbn.
  fold (alter_all (Sentence.mark_mine c2) (heap st) (knowledge st)).
  fold (alter_all (Sentence.mark_mine c1) (heap st) (knowledge st)).
  f_equal.
  - set_solver.
  - apply alter_all_commute. intros s. apply sentence_mark_mine_commute.
Qed.

Lemma mark_safe_commute c1 c2 st :
  mark_safe c1 (mark_safe c2 st) = mark_safe c2 (mark_safe c1 st).
Proof.
  unfold mark_safe, update_all, set_heap. cbn.
  fold (alter_all (Sentence.mark_safe c2) (heap st) (knowledge st)).
  fold (alter_all (Sentence.mark_safe c1) (heap st) (knowledge st)).
  f_equal.
  - set_solver.
  - apply alter_all_commute. intros s. apply sentence_mark_safe_commute.
Qed.

Lemma foldl_permutation {A B : Type} (f : A → B → A) (l l' : list B) :
  (∀ a x y, f (f a x) y = f (f a y) x) →
  l ≡ₚ l' → ∀ a, foldl f a l = foldl f a l'.
Proof.
  intros Hf Hp. induction Hp as [| x l l' _ IH | x y l | l1 l2 l3 _ IH1 _ IH2];
    intros a; simpl.
  - done.
  - apply IH.
  - by rewrite Hf.
  - by rewrite IH1.
Qed.

End mark_order.

(** X1: marking a cell a second time changes nothing, for [mark_mine] and
    for [mark_safe]: the cell is in the set already and no stored sentence
    holds it any more. *)
Theorem mark_twice (c : Cell) (st : MinesweeperAI) :
  mark_mine c (mark_mine c st) = mark_mine c st ∧
  mark_safe c (mark_safe c st) = mark_safe c st.
Proof.
  split.
  - unfold mark_mine, update_all, set_heap. cbn.
    fold (alter_all (Sentence.mark_mine c) (heap st) (knowledge st)).
    f_equal; [set_solver |].
    apply alter_all_idempotent, sentence_mark_mine_idempotent.
  - unfold mark_safe, update_all, set_heap. cbn.
    fold (alter_all (Sentence.mark_safe c) (heap st) (knowledge st)).
    f_equal; [set_solver |].
    apply alter_all_idempotent, sentence_mark_safe_idempotent.
Qed.

(** X2: the loops [for cell in mines: self.mark_mine(cell)] and
    [for cell in safes: self.mark_safe(cell)] give the same state in
    whatever order the set is gone through. *)
Theorem mark_order_irrelevant (cs : gset Cell) (l : list Cell)
    (st : MinesweeperAI) :
  l ≡ₚ elements cs →
  foldl (λ st c, mark_mine c st) st l = mark_mines cs st ∧
  foldl (λ st c, mark_safe c st) st l = mark_safes cs st.
Proof.
  intros Hp. unfold mark_mines, mark_safes. split.
  - apply foldl_permutation; [| done].
    intros a x y. apply mark_mine_commute.
  - apply foldl_permutation; [| done].
    intros a x y. apply mark_safe_commute.
Qed.

(** X2 at the set [{(0,1), (1,0), (1,1)}] gone through backwards, in a
    player that stores [{(0,1),(1,0),(1,1),(2,2)} = 3]. *)
Lemma mark_order_irrelevant_witness :
  let cs : gset Cell := {[ (0, 1); (1, 0); (1, 1) ]} in
  let st := {| height := 8; width := 8; moves_made := ∅; mines := ∅;
               safes := ∅;
               heap := [ Sentence.init (cs ∪ {[ (2, 2) ]}) 3 ];
               knowledge := [0%nat] |} in
  foldl (λ st c, mark_mine c st) st (reverse (elements cs)) = mark_mines cs st ∧
  foldl (λ st c, mark_safe c st) st (reverse (elements cs)) = mark_safes cs st.
Proof.
  intros cs st. apply (mark_order_irrelevant cs (reverse (elements cs)) st).
  apply reverse_Permutation.
Defined.

(** ** Soundness of the inference *)

Section soundness.

Variable layout : gset Cell.

Implicit Types (st : MinesweeperAI) (r : nat) (c : Cell) (s d : Sentence).
Implicit Types (cs ms ss : gset Cell).

Lemma holds_mark_mine c s :
  c ∈ layout → holds layout s → holds layout (Sentence.mark_mine c s).
Proof.
  unfold holds, Sentence.mark_mine. intros Hc Hs.
  destruct (decide (c ∈ cells s)) as [Hin | _]; [| done]. simpl.
  assert ((cells s ∖ {[c]}) ∩ layout = (cells s ∩ layout) ∖ {[c]}) as ->
    by set_solver.
  rewrite size_difference by set_solver. rewrite size_singleton.
  assert (size (cells s ∩ layout) ≠ 0)%nat.
  { apply size_non_empty_iff. set_solver. }
  lia.
Qed.

Lemma holds_mark_safe c s :
  c ∉ layout → holds layout s → holds layout (Sentence.mark_safe c s).
Proof.
  unfold holds, Sentence.mark_safe. intros Hc Hs.
  destruct (decide (c ∈ cells s)) as [Hin | _]; [| done]. simpl.
  assert ((cells s ∖ {[c]}) ∩ layout = cells s ∩ layout) as -> by set_solver.
  done.
Qed.

(** A true sentence whose count is its number of cells holds mines only;
    one whose count is 0 holds none. *)
Lemma holds_known_mines s cs :
  holds layout s → Sentence.known_mines s = Some cs → cs ⊆ layout.
Proof.
  intros Hs Hk. pose proof (known_mines_Some _ _ Hk) as ->.
  unfold Sentence.known_mines in Hk.
  destruct (Z.eqb_spec (Sentence.len s) (count s)) as [E | _];
    [| by destruct (count s =? 0)].
  unfold holds, Sentence.len in *.
  assert (cells s ∩ layout = cells s) as <-; [| set_solver].
  apply set_subseteq_size_eq; [set_solver | lia].
Qed.

Lemma holds_known_safes s cs :
  holds layout s → Sentence.known_safes s = Some cs → cs ## layout.
Proof.
  intros Hs Hk. pose proof (known_safes_Some _ _ Hk) as ->.
  unfold Sentence.known_safes in Hk.
  destruct (Z.eqb_spec (count s) 0) as [E | _]; [| done].
  unfold holds in Hs.
  assert (cells s ∩ layout = ∅); [| set_solver].
  apply leibniz_equiv, size_empty_iff. lia.
Qed.

Lemma holds_default : holds layout (Sentence.init ∅ 0).
Proof. unfold holds. simpl. by rewrite intersection_empty_l_L, size_empty. Qed.

Lemma sound_deref st r : sound layout st → holds layout (deref st r).
Proof.
  intros (Hh & _). unfold deref.
  destruct (heap st !! r) as [s |] eqn:E; simpl; [| apply holds_default].
  by eapply Forall_lookup_1.
Qed.

Lemma Forall_alter_all (P : Sentence → Prop) f h k :
  (∀ s, P s → P (f s)) → Forall P h → Forall P (alter_all f h k).
Proof.
  intros Hf. revert h. induction k as [| r k IH]; intros h Hh; [done |].
  unfold alter_all in *. cbn [foldl]. apply IH.
  apply Forall_alter; [done |]. intros s _. apply Hf.
Qed.

Lemma sound_mark_mine c st :
  c ∈ layout → sound layout st → sound layout (mark_mine c st).
Proof.
  intros Hc (Hh & Hm & Hs). unfold sound, mark_mine, update_all. cbn.
  split; [| split; [set_solver | done]].
  apply Forall_alter_all; [| done]. intros s. by apply holds_mark_mine.
Qed.

Lemma sound_mark_safe c st :
  c ∉ layout → sound layout st → sound layout (mark_safe c st).
Proof.
  intros Hc (Hh & Hm & Hs). unfold sound, mark_safe, update_all. cbn.
  split; [| split; [done | set_solver]].
  apply Forall_alter_all; [| done]. intros s. by apply holds_mark_safe.
Qed.

Lemma sound_mark_mines cs st :
  cs ⊆ layout → sound layout st → sound layout (mark_mines cs st).
Proof.
  intros Hcs. unfold mark_mines.
  assert (∀ c, c ∈ elements cs → c ∈ layout) as Hl by set_solver.
  revert st Hl. generalize (elements cs) as l.
  induction l as [| c l IH]; intros st Hl Hst; [done |]. cbn [foldl].
  apply IH; [set_solver |]. apply sound_mark_mine; [set_solver | done].
Qed.

Lemma sound_mark_safes cs st :
  cs ## layout → sound layout st → sound layout (mark_safes cs st).
Proof.
  intros Hcs. unfold mark_safes.
  assert (∀ c, c ∈ elements cs → c ∉ layout) as Hl by set_solver.
  revert st Hl. generalize (elements cs) as l.
  induction l as [| c l IH]; intros st Hl Hst; [done |]. cbn [foldl].
  apply IH; [set_solver |]. apply sound_mark_safe; [set_solver | done].
Qed.

Lemma sound_same_sets st st' :
  heap st' = heap st → mines st' = mines st → safes st' = safes st →
  sound layout st → sound layout st'.
Proof. unfold sound. by intros -> -> ->. Qed.

Lemma ck_scan_sound n i st ms ss upd st' ms' ss' upd' :
  sound layout st → ms ⊆ layout → ss ## layout →
  ck_scan n i st ms ss upd = (st', ms', ss', upd') →
  sound layout st' ∧ ms' ⊆ layout ∧ ss' ## layout.
Proof.
  revert i st ms ss upd.
  induction n as [| n IH]; intros i st ms ss upd Hst Hms Hss; simpl.
  { by intros [= <- <- <- <-]. }
  destruct (knowledge st !! i) as [r |]; [| by intros [= <- <- <- <-]].
  pose proof (sound_deref st r Hst) as Hr.
  destruct (Sentence.len (deref st r) =? 0).
  { apply IH; [| done | done]. by apply (sound_same_sets st). }
  destruct (Sentence.known_mines _) as [cm |] eqn:Hm,
           (Sentence.known_safes _) as [cf |] eqn:Hf;
    try pose proof (holds_known_mines _ _ Hr Hm);
    try pose proof (holds_known_safes _ _ Hr Hf);
    apply IH; try done; set_solver.
Qed.

Lemma check_knowledge_fuel_sound fuel st st' :
  sound layout st → check_knowledge_fuel fuel st = Some st' →
  sound layout st'.
Proof.
  revert st. induction fuel as [| f IH]; intros st Hst; simpl; [done |].
  destruct (ck_scan _ _ _ _ _ _) as [[[st1 ms] ss] upd] eqn:Hscan.
  apply ck_scan_sound in Hscan as (Hst1 & Hms & Hss);
    [| done | set_solver | set_solver].
  destruct upd; [| by intros [= <-]].
  apply IH. by apply sound_mark_safes, sound_mark_mines.
Qed.

Lemma check_knowledge_sound st st' :
  sound layout st → check_knowledge st = Some st' → sound layout st'.
Proof. apply check_knowledge_fuel_sound. Qed.

Lemma sound_alloc st d :
  sound layout st → holds layout d → sound layout (fst (alloc st d)).
Proof.
  intros (Hh & Hm & Hs) Hd. unfold sound, alloc. cbn.
  split; [| done]. apply Forall_app. split; [done |]. by apply Forall_singleton.
Qed.

Lemma subset_loop_sound (rec : MinesweeperAI → nat → option MinesweeperAI)
    r n i st st' :
  (∀ st r st', sound layout st → rec st r = Some st' → sound layout st') →
  sound layout st → subset_loop rec r n i st = Some st' → sound layout st'.
Proof.
  intros Hrec. revert i st.
  induction n as [| n IH]; intros i st Hst; cbn [subset_loop];
    destruct (knowledge st !! i) as [ir |]; try done;
    try (by intros [= <-]).
  destruct (Sentence.len (deref st ir) =? 0).
  { apply IH. by apply (sound_same_sets st). }
  destruct (resolve _ _) as [d |] eqn:Hd; [| by apply IH].
  cbn [alloc].
  destruct (rec _ _) as [st2 |] eqn:Hcall; cbn [mbind option_bind]; [| done].
  apply IH. eapply Hrec; [| exact Hcall].
  apply (sound_alloc st d Hst).
  eapply resolve_sound; [| | exact Hd]; by apply sound_deref.
Qed.

Lemma check_and_add_sentence_sound fuel st r st' :
  sound layout st → check_and_add_sentence fuel st r = Some st' →
  sound layout st'.
Proof.
  revert st r st'. induction fuel as [| f IH]; intros st r st' Hst;
    cbn [check_and_add_sentence]; [done |].
  destruct (check_knowledge st) as [st1 |] eqn:Hck;
    cbn [mbind option_bind]; [| done].
  apply check_knowledge_sound in Hck; [| done].
  pose proof (sound_deref st1 r Hck) as Hr.
  destruct (knowledge_contains _ _); [by intros [= <-] |].
  destruct (Sentence.len _ =? 0); [by intros [= <-] |].
  destruct (Sentence.known_mines _) as [cs |] eqn:Hm.
  { intros [= <-]. apply sound_mark_mines; [| done].
    by eapply holds_known_mines. }
  destruct (Sentence.known_safes _) as [cs |] eqn:Hf.
  { intros [= <-]. apply sound_mark_safes; [| done].
    by eapply holds_known_safes. }
  apply subset_loop_sound; [exact IH |].
  by apply (sound_same_sets st1).
Qed.

End soundness.

(** ** The game board *)

Section board_facts.

Implicit Types (g : Minesweeper.t) (c : Cell) (i j : Z).

Lemma position_in_range {A : Type} (l : list A) i :
  0 ≤ i < Z.of_nat (length l) → position l i = Some (Z.to_nat i).
Proof.
  intros H. unfold position. cbn zeta.
  destruct (Z.leb_spec 0 i), (Z.ltb_spec i (Z.of_nat (length l)));
    simpl; (done || lia).
Qed.

Lemma position_negative {A : Type} (l : list A) i :
  - Z.of_nat (length l) ≤ i < 0 →
  position l i = Some (Z.to_nat (Z.of_nat (length l) + i)).
Proof.
  intros H. unfold position. cbn zeta.
  destruct (Z.leb_spec 0 i); [lia |]. simpl.
  destruct (Z.leb_spec (- Z.of_nat (length l)) i), (Z.ltb_spec i 0);
    simpl; (done || lia).
Qed.

Lemma position_out_of_range {A : Type} (l : list A) i :
  ¬ (- Z.of_nat (length l) ≤ i < Z.of_nat (length l)) → position l i = None.
Proof.
  intros H. unfold position. cbn zeta.
  destruct (Z.leb_spec 0 i), (Z.ltb_spec i (Z.of_nat (length l))),
    (Z.leb_spec (- Z.of_nat (length l)) i), (Z.ltb_spec i 0);
    simpl; (done || lia).
Qed.

Lemma index_in_range {A : Type} (l : list A) i :
  0 ≤ i < Z.of_nat (length l) → index l i = l !! Z.to_nat i.
Proof. intros H. unfold index. by rewrite position_in_range. Qed.

(** Reading a cell of a rectangular board. *)
Lemma is_mine_on_board g c :
  length (Minesweeper.board g) = Z.to_nat (Minesweeper.height g) →
  Forall (λ row, length row = Z.to_nat (Minesweeper.width g))
         (Minesweeper.board g) →
  Minesweeper.on_board g c →
  ∃ row b, Minesweeper.board g !! Z.to_nat (fst c) = Some row ∧
           row !! Z.to_nat (snd c) = Some b ∧
           position (Minesweeper.board g) (fst c) = Some (Z.to_nat (fst c)) ∧
           position row (snd c) = Some (Z.to_nat (snd c)) ∧
           Minesweeper.is_mine g c = Some b.
Proof.
  intros Hlen Hrows [Hi Hj].
  destruct (lookup_lt_is_Some_2 (Minesweeper.board g) (Z.to_nat (fst c)))
    as [row Hrow]; [lia |].
  pose proof (Forall_lookup_1 _ _ _ _ Hrows Hrow) as Hw. cbn beta in Hw.
  destruct (lookup_lt_is_Some_2 row (Z.to_nat (snd c))) as [b Hb]; [lia |].
  exists row, b. unfold Minesweeper.is_mine.
  rewrite index_in_range by lia. rewrite Hrow. cbn [mbind option_bind].
  rewrite index_in_range by lia.
  rewrite !position_in_range by lia. done.
Qed.

Lemma wf_shape g :
  Minesweeper.wf g →
  length (Minesweeper.board g) = Z.to_nat (Minesweeper.height g) ∧
  Forall (λ row, length row = Z.to_nat (Minesweeper.width g))
         (Minesweeper.board g).
Proof. intros (H1 & H2 & _). split; [done | by apply Forall_forall]. Qed.

(** The board before any mine is placed. *)
Lemma wf_empty h w :
  Minesweeper.wf
    {| Minesweeper.height := h; Minesweeper.width := w;
       Minesweeper.mines := ∅;
       Minesweeper.board := Minesweeper.empty_board h w;
       Minesweeper.mines_found := ∅ |}.
Proof.
  unfold Minesweeper.wf, Minesweeper.empty_board. cbn.
  split; [by rewrite length_replicate |]. split.
  { intros row Hrow. apply elem_of_replicate in Hrow as [-> _].
    by rewrite length_replicate. }
  split; [set_solver |].
  intros c [Hi Hj]. cbn in Hi, Hj. unfold Minesweeper.is_mine. cbn.
  rewrite index_in_range by (rewrite length_replicate; lia).
  rewrite lookup_replicate_2 by lia. cbn.
  rewrite index_in_range by (rewrite length_replicate; lia).
  rewrite lookup_replicate_2 by lia. done.
Qed.

(** A round of the placing loop with numbers in range: the drawn cell is
    a mine afterwards, nothing else changes, and the board still agrees
    with the set. *)
Lemma place_in_range g c :
  Minesweeper.wf g → Minesweeper.on_board g c →
  ∃ g', Minesweeper.place g c = Some g' ∧ Minesweeper.wf g' ∧
        Minesweeper.mines g' = {[c]} ∪ Minesweeper.mines g ∧
        Minesweeper.height g' = Minesweeper.height g ∧
        Minesweeper.width g' = Minesweeper.width g ∧
        Minesweeper.mines_found g' = Minesweeper.mines_found g.
Proof.
  intros Hwf Hc. pose proof Hwf as (Hlen & Hrows & Hon & Hagree).
  destruct (wf_shape g Hwf) as [_ HrowsF].
  destruct (is_mine_on_board g c Hlen HrowsF Hc)
    as (row & b & Hrow & Hb & Hpi & Hpj & Hread).
  destruct c as [i j]. cbn [fst snd] in *.
  unfold Minesweeper.place. rewrite Hpi. cbn [mbind option_bind].
  rewrite Hrow. cbn [mbind option_bind]. rewrite Hpj.
  cbn [mbind option_bind]. rewrite Hb. cbn [mbind option_bind].
  rewrite (Hagree _ Hc) in Hread. injection Hread as Hread.
  destruct b.
  { exists g. apply bool_decide_eq_true in Hread.
    split; [done |]. split; [done |]. split; [set_solver | done]. }
  apply bool_decide_eq_false in Hread.
  eexists. split; [reflexivity |]. cbn.
  split; [| done].
  unfold Minesweeper.wf. cbn.
  split; [by rewrite length_insert |]. split.
  { intros row' Hrow'. apply list_elem_of_lookup in Hrow' as [k Hk].
    destruct (decide (k = Z.to_nat i)) as [-> | Hne].
    - rewrite list_lookup_insert_eq in Hk by (by eapply lookup_lt_Some).
      injection Hk as <-. rewrite length_insert.
      by eapply Forall_lookup_1 in HrowsF.
    - rewrite list_lookup_insert_ne in Hk by done.
      apply Hrows. by eapply list_elem_of_lookup_2. }
  split.
  { intros c' Hc'. apply elem_of_union in Hc' as [Hc' | Hc'].
    - apply elem_of_singleton in Hc' as ->. exact Hc.
    - by apply Hon. }
  intros [i' j'] Hc'. unfold Minesweeper.on_board in Hc, Hc'.
  cbn [fst snd Minesweeper.height Minesweeper.width] in Hc, Hc'.
  unfold Minesweeper.is_mine. cbn [fst snd Minesweeper.board].
  rewrite index_in_range by (rewrite length_insert; lia).
  destruct (decide (i' = i)) as [-> | Hi].
  - rewrite list_lookup_insert_eq by (by eapply lookup_lt_Some).
    cbn [mbind option_bind].
    assert (length row = Z.to_nat (Minesweeper.width g)) as Hw
      by (by eapply Forall_lookup_1 in HrowsF).
    rewrite index_in_range by (rewrite length_insert; lia).
    destruct (decide (j' = j)) as [-> | Hj].
    + rewrite list_lookup_insert_eq by lia.
      symmetry. f_equal. apply bool_decide_eq_true. set_solver.
    + rewrite list_lookup_insert_ne by lia.
      specialize (Hagree (i, j')). unfold Minesweeper.is_mine in Hagree.
      cbn [fst snd] in Hagree.
      rewrite index_in_range, Hrow in Hagree by lia.
      cbn [mbind option_bind] in Hagree.
      rewrite index_in_range in Hagree by lia.
      rewrite Hagree by (split; cbn; lia).
      f_equal. apply bool_decide_ext. set_solver.
  - rewrite list_lookup_insert_ne by lia.
    specialize (Hagree (i', j')). unfold Minesweeper.is_mine in Hagree.
    cbn [fst snd] in Hagree.
    rewrite index_in_range in Hagree by lia.
    rewrite Hagree by (split; cbn; lia).
    f_equal. apply bool_decide_ext. set_solver.
Qed.

End board_facts.

(** ** Constructing the game *)

Section init_facts.

Implicit Types (g : Minesweeper.t) (c : Cell) (draws : list Cell).

Lemma on_board_same_size g g' c :
  Minesweeper.height g' = Minesweeper.height g →
  Minesweeper.width g' = Minesweeper.width g →
  Minesweeper.on_board g c → Minesweeper.on_board g' c.
Proof. unfold Minesweeper.on_board. by intros -> ->. Qed.

(** The placing loop keeps the board and the set in agreement, and what it
    adds to the mines are cells that were drawn. *)
Lemma place_mines_spec draws target g g' :
  Minesweeper.wf g → Forall (Minesweeper.on_board g) draws →
  Minesweeper.place_mines draws target g = Some g' →
  Minesweeper.wf g' ∧
  Z.of_nat (size (Minesweeper.mines g')) = target ∧
  Minesweeper.mines g ⊆ Minesweeper.mines g' ∧
  Minesweeper.mines g' ⊆ Minesweeper.mines g ∪ list_to_set draws ∧
  Minesweeper.height g' = Minesweeper.height g ∧
  Minesweeper.width g' = Minesweeper.width g ∧
  Minesweeper.mines_found g' = Minesweeper.mines_found g.
Proof.
  assert (∀ g0 l, Minesweeper.wf g0 →
                  Z.of_nat (size (Minesweeper.mines g0)) = target →
                  Minesweeper.wf g0 ∧
                  Z.of_nat (size (Minesweeper.mines g0)) = target ∧
                  Minesweeper.mines g0 ⊆ Minesweeper.mines g0 ∧
                  Minesweeper.mines g0
                  ⊆ Minesweeper.mines g0 ∪ list_to_set l ∧
                  Minesweeper.height g0 = Minesweeper.height g0 ∧
                  Minesweeper.width g0 = Minesweeper.width g0 ∧
                  Minesweeper.mines_found g0 = Minesweeper.mines_found g0)
    as Hstop.
  { intros g0 l H1 H2. split; [done |]. split; [done |]. split; [done |].
    split; [apply union_subseteq_l | done]. }
  revert g. induction draws as [| c draws IH]; intros g Hwf Hdraws;
    cbn [Minesweeper.place_mines];
    destruct (Z.eqb_spec (Z.of_nat (size (Minesweeper.mines g))) target)
      as [E | E].
  - intros [= <-]. by apply Hstop.
  - done.
  - intros [= <-]. by apply Hstop.
  - apply Forall_cons in Hdraws as [Hc Hdraws].
    destruct (place_in_range g c Hwf Hc)
      as (g1 & -> & Hwf1 & Hm1 & Hh1 & Hw1 & Hf1).
    cbn [mbind option_bind]. intros Hrun.
    apply IH in Hrun as (H1 & H2 & H3 & H4 & -> & -> & ->).
    + split; [done |]. split; [done |]. rewrite Hm1 in H3, H4.
      split; [clear - H3; set_solver |]. split; [| done].
      cbn [list_to_set foldr]. clear - H4. set_solver.
    + done.
    + eapply Forall_impl; [exact Hdraws |]. intros c'.
      by apply on_board_same_size.
Qed.

(** The loop is over once enough distinct cells have been drawn. *)
Lemma place_mines_returns draws target g :
  Minesweeper.wf g → Forall (Minesweeper.on_board g) draws →
  (size (Minesweeper.mines g) ≤ Z.to_nat target)%nat →
  0 ≤ target →
  (Z.to_nat target
   ≤ size (Minesweeper.mines g ∪ list_to_set draws))%nat →
  is_Some (Minesweeper.place_mines draws target g).
Proof.
  revert g. induction draws as [| c draws IH]; intros g Hwf Hdraws Hlo H0 Hhi;
    cbn [Minesweeper.place_mines];
    destruct (Z.eqb_spec (Z.of_nat (size (Minesweeper.mines g))) target)
      as [E | E]; try done.
  { exfalso. cbn in Hhi. rewrite union_empty_r_L in Hhi. lia. }
  apply Forall_cons in Hdraws as [Hc Hdraws].
  destruct (place_in_range g c Hwf Hc)
    as (g1 & -> & Hwf1 & Hm1 & Hh1 & Hw1 & Hf1).
  cbn [mbind option_bind]. apply IH; try done.
  - eapply Forall_impl; [exact Hdraws |]. intros c'.
    by apply on_board_same_size.
  - rewrite Hm1. rewrite size_union_alt, size_singleton.
    pose proof (subseteq_size (Minesweeper.mines g ∖ {[c]})
                  (Minesweeper.mines g)).
    assert (size (Minesweeper.mines g ∖ {[c]}) ≤ size (Minesweeper.mines g))%nat
      by (apply subseteq_size; set_solver).
    lia.
  - rewrite Hm1. cbn [list_to_set foldr] in Hhi.
    assert ({[c]} ∪ Minesweeper.mines g ∪ list_to_set draws
            = Minesweeper.mines g ∪ ({[c]} ∪ list_to_set draws)) as ->
      by set_solver.
    done.
Qed.

(** The cells of an [h] by [w] board, to count them. *)
Lemma size_list_to_set_le (l : list Cell) :
  (size (list_to_set l : gset Cell) ≤ length l)%nat.
Proof.
  induction l as [| x l IH]; cbn [list_to_set foldr length].
  { by rewrite size_empty. }
  rewrite size_union_alt, size_singleton.
  assert (size (list_to_set l ∖ {[x]} : gset Cell)
          ≤ size (list_to_set l : gset Cell))%nat
    by (apply subseteq_size; set_solver).
  lia.
Qed.

Lemma wf_mines_size g :
  Minesweeper.wf g →
  (size (Minesweeper.mines g)
   ≤ Z.to_nat (Minesweeper.height g) * Z.to_nat (Minesweeper.width g))%nat.
Proof.
  intros (_ & _ & Hon & _).
  set (cs := cprod (seqZ 0 (Minesweeper.height g))
                   (seqZ 0 (Minesweeper.width g))).
  assert (Minesweeper.mines g ⊆ list_to_set cs) as Hsub.
  { intros c Hc. apply elem_of_list_to_set, list_elem_of_cprod.
    destruct (Hon c Hc) as [Hi Hj].
    split; apply elem_of_seqZ; lia. }
  apply subseteq_size in Hsub.
  pose proof (size_list_to_set_le cs) as Hle.
  assert (length cs
          = (Z.to_nat (Minesweeper.height g)
             * Z.to_nat (Minesweeper.width g))%nat) as Hlen.
  { unfold cs. rewrite list_cprod_list_prod, length_prod.
    by rewrite !length_seqZ. }
  lia.
Qed.

Lemma place_mines_never draws target g :
  Minesweeper.wf g → Forall (Minesweeper.on_board g) draws →
  target < 0 ∨
  Z.of_nat (Z.to_nat (Minesweeper.height g)
            * Z.to_nat (Minesweeper.width g)) < target →
  Minesweeper.place_mines draws target g = None.
Proof.
  intros Hwf Hdraws Htarget. revert g Hwf Hdraws Htarget.
  induction draws as [| c draws IH]; intros g Hwf Hdraws Htarget;
    cbn [Minesweeper.place_mines];
    pose proof (wf_mines_size g Hwf);
    destruct (Z.eqb_spec (Z.of_nat (size (Minesweeper.mines g))) target)
      as [E | E]; try lia; [done |].
  apply Forall_cons in Hdraws as [Hc Hdraws].
  destruct (place_in_range g c Hwf Hc)
    as (g1 & -> & Hwf1 & Hm1 & Hh1 & Hw1 & Hf1).
  cbn [mbind option_bind]. apply IH; [done | | by rewrite Hh1, Hw1].
  eapply Forall_impl; [exact Hdraws |]. intros c'.
  by apply on_board_same_size.
Qed.

End init_facts.

(** X3: when [Minesweeper(height, width, mines)] returns, the game has
    exactly [mines] mines, all of them cells of the board that were drawn;
    the board is a [height] by [width] rectangle whose cell reads [True]
    exactly when it is in [self.mines]; no mine is found yet, so the game
    is won only if it has no mine at all. *)
Theorem init_spec (h w target : Z) (draws : list Cell)
    (g : Minesweeper.t) :
  Forall (in_range h w) draws →
  Minesweeper.init h w target draws = Some g →
  Minesweeper.wf g ∧
  Z.of_nat (size (Minesweeper.mines g)) = target ∧
  Minesweeper.mines g ⊆ list_to_set draws ∧
  Minesweeper.height g = h ∧ Minesweeper.width g = w ∧
  Minesweeper.mines_found g = ∅ ∧
  Minesweeper.won g = bool_decide (target = 0).
Proof.
  intros Hdraws Hinit. unfold Minesweeper.init in Hinit.
  apply place_mines_spec in Hinit
    as (Hwf & Hsize & _ & Hsub & Hh & Hw & Hf);
    [| apply wf_empty | exact Hdraws].
  cbn in Hsub, Hh, Hw, Hf.
  split; [done |]. split; [done |].
  split; [by rewrite union_empty_l_L in Hsub |].
  split; [done |]. split; [done |]. split; [done |].
  unfold Minesweeper.won. rewrite Hf. apply bool_decide_ext.
  split.
  - intros H. rewrite <- H, size_empty in Hsize. lia.
  - intros H. symmetry. apply leibniz_equiv, size_empty_iff. lia.
Qed.

(** X3 on a 2×2 board with one mine, the first draw being [(1,1)]. *)
Lemma init_spec_witness :
  ∃ g, Minesweeper.init 2 2 1 [(1, 1); (0, 0)] = Some g ∧
       Minesweeper.mines g = {[ (1, 1) ]} ∧
       Minesweeper.board g = [[false; false]; [false; true]] ∧
       Z.of_nat (size (Minesweeper.mines g)) = 1.
Proof.
  eexists. split; [vm_compute; reflexivity |].
  split; [by vm_compute |]. split; [by vm_compute |].
  eapply (init_spec 2 2 1 [(1, 1); (0, 0)]).
  - repeat constructor; cbn; lia.
  - vm_compute. reflexivity.
Defined.

(** X4: the constructor returns as soon as the draws have given [mines]
    distinct cells: it does so for every sequence of draws that holds at
    least [mines] distinct cells. *)
Theorem init_returns (h w target : Z) (draws : list Cell) :
  Forall (in_range h w) draws →
  0 ≤ target →
  (Z.to_nat target ≤ size (list_to_set draws : gset Cell))%nat →
  is_Some (Minesweeper.init h w target draws).
Proof.
  intros Hdraws H0 Hhi. unfold Minesweeper.init.
  apply place_mines_returns; try done.
  - apply wf_empty.
  - cbn. rewrite size_empty. lia.
  - cbn. by rewrite union_empty_l_L.
Qed.

Lemma init_returns_witness :
  is_Some (Minesweeper.init 2 2 2 [(1, 1); (1, 1); (0, 1)]).
Proof.
  apply init_returns.
  - repeat constructor; cbn; lia.
  - lia.
  - by_compute.
Defined.

(** X5: with a negative number of mines, or more mines than the board has
    cells, the placing loop of the constructor never ends, whatever is
    drawn. *)
Theorem init_never_returns (h w target : Z) (draws : list Cell) :
  Forall (in_range h w) draws →
  target < 0 ∨ Z.of_nat (Z.to_nat h * Z.to_nat w) < target →
  Minesweeper.init h w target draws = None.
Proof.
  intros Hdraws Htarget. unfold Minesweeper.init.
  apply place_mines_never; [apply wf_empty | exact Hdraws | exact Htarget].
Qed.

Lemma init_never_returns_witness :
  Minesweeper.init 2 2 5 [(0, 0); (0, 1); (1, 0); (1, 1); (0, 0)] = None.
Proof.
  apply init_never_returns.
  - repeat constructor; cbn; lia.
  - right. cbn. lia.
Defined.

(** ** Reading the board *)

Section reading.

Implicit Types (g : Minesweeper.t) (c : Cell) (i j : Z).

Lemma mod_wrap n i :
  - n ≤ i < n → i mod n = if i <? 0 then n + i else i.
Proof.
  intros H. destruct (Z.ltb_spec i 0).
  - symmetry. apply (Z.mod_unique_pos _ _ (-1)); lia.
  - apply Z.mod_small. lia.
Qed.

Lemma position_wrap {A : Type} (l : list A) i :
  - Z.of_nat (length l) ≤ i < Z.of_nat (length l) →
  position l i = Some (Z.to_nat (i mod Z.of_nat (length l))).
Proof.
  intros H. rewrite mod_wrap by done. destruct (Z.ltb_spec i 0).
  - apply position_negative. lia.
  - apply position_in_range. lia.
Qed.

Lemma neighbourhood_NoDup c : NoDup (neighbourhood c).
Proof.
  destruct c as [r k]. unfold neighbourhood, range3.
  cbn [fst snd mbind list_bind app].
  repeat (apply NoDup_cons; split;
          [rewrite ?elem_of_cons, elem_of_nil; intros H;
           repeat destruct H as [H | H]; try done; injection H; lia |]).
  apply NoDup_nil_2.
Qed.

Lemma size_around c : size (around c) = 8%nat.
Proof.
  unfold around. rewrite size_difference.
  - rewrite size_list_to_set by apply neighbourhood_NoDup.
    rewrite size_singleton. destruct c. reflexivity.
  - apply singleton_subseteq_l, elem_of_list_to_set, elem_of_neighbourhood.
    lia.
Qed.

(** The number of list entries that satisfy [P], as the size of a set. *)
Lemma length_filter_NoDup (P : Cell → Prop) `{∀ x, Decision (P x)}
    (l : list Cell) :
  NoDup l →
  length (filter P l) = size (filter P (list_to_set l : gset Cell)).
Proof.
  intros Hnd. rewrite <- (size_list_to_set (C := gset Cell) (filter P l))
    by (by apply NoDup_filter).
  f_equal. apply set_eq. intros x.
  rewrite elem_of_list_to_set, list_elem_of_filter, elem_of_filter.
  by rewrite elem_of_list_to_set.
Qed.

(** The count of [nearby_mines] over any part of the neighbourhood. *)
Lemma nearby_fold g cell (l : list Cell) (n : Z) :
  Minesweeper.wf g →
  foldl (Minesweeper.nearby_step g cell) (Some n) l
  = Some (n + Z.of_nat (length (filter
                          (λ x, x ≠ cell ∧ x ∈ Minesweeper.mines g) l))).
Proof.
  intros Hwf. pose proof Hwf as (_ & _ & Hon & Hagree).
  revert n. induction l as [| x l IH]; intros n; cbn [foldl].
  { cbn. f_equal. lia. }
  rewrite filter_cons.
  unfold Minesweeper.nearby_step at 2. cbn [mbind option_bind].
  destruct (decide (x = cell)) as [-> | Hne].
  { rewrite decide_False by (by intros [? _]). apply IH. }
  destruct ((0 <=? fst x) && (fst x <? Minesweeper.height g)
            && (0 <=? snd x) && (snd x <? Minesweeper.width g)) eqn:Hb.
  - assert (Minesweeper.on_board g x) as Hx.
    { unfold Minesweeper.on_board.
      repeat (apply andb_true_iff in Hb as [Hb ?]). lia. }
    rewrite (Hagree x Hx). cbn [mbind option_bind].
    destruct (decide (x ∈ Minesweeper.mines g)) as [Hm | Hm].
    + rewrite bool_decide_eq_true_2 by done.
      rewrite decide_True by done. rewrite IH. cbn [length]. f_equal. lia.
    + rewrite bool_decide_eq_false_2 by done.
      rewrite decide_False by (by intros [_ ?]). apply IH.
  - rewrite decide_False; [apply IH |]. intros [_ Hm].
    destruct (Hon x Hm) as [Hi Hj].
    assert ((0 <=? fst x) && (fst x <? Minesweeper.height g)
            && (0 <=? snd x) && (snd x <? Minesweeper.width g) = true);
      [| congruence].
    repeat (apply andb_true_iff; split); lia.
Qed.

(** What the constructor establishes, for the proofs below. *)
Lemma init_wf h w target (draws : list Cell) g :
  Forall (in_range h w) draws →
  Minesweeper.init h w target draws = Some g → Minesweeper.wf g.
Proof.
  intros Hdraws Hinit. unfold Minesweeper.init in Hinit.
  apply place_mines_spec in Hinit as (Hwf & _); [done | apply wf_empty |].
  exact Hdraws.
Qed.

End reading.

(** X6: on a constructed game, [is_mine] takes a row index from
    [-height] to [height - 1] and a column index from [-width] to
    [width - 1], a negative one counting from the far edge, and tells
    whether the cell it stands for is a mine; any other index raises. *)
Theorem is_mine_spec (g : Minesweeper.t) (i j : Z) :
  Minesweeper.wf g →
  Minesweeper.is_mine g (i, j) =
    if decide (- Minesweeper.height g ≤ i < Minesweeper.height g
               ∧ - Minesweeper.width g ≤ j < Minesweeper.width g)
    then Some (bool_decide ((i mod Minesweeper.height g,
                             j mod Minesweeper.width g)
                            ∈ Minesweeper.mines g))
    else None.
Proof.
  intros Hwf. pose proof Hwf as (Hlen & Hrows & Hon & Hagree).
  unfold Minesweeper.is_mine, index. cbn [fst snd].
  destruct (decide (- Minesweeper.height g ≤ i < Minesweeper.height g))
    as [Hi | Hi].
  2: { rewrite position_out_of_range by lia. cbn [mbind option_bind].
       rewrite decide_False by tauto. done. }
  rewrite position_wrap by lia. cbn [mbind option_bind].
  assert (Z.of_nat (length (Minesweeper.board g)) = Minesweeper.height g)
    as Hh by lia.
  rewrite Hh.
  assert (0 ≤ i mod Minesweeper.height g < Minesweeper.height g) as Hi'
    by (apply Z.mod_pos_bound; lia).
  destruct (lookup_lt_is_Some_2 (Minesweeper.board g)
              (Z.to_nat (i mod Minesweeper.height g))) as [row Hrow];
    [lia |].
  rewrite Hrow. cbn [mbind option_bind].
  assert (length row = Z.to_nat (Minesweeper.width g)) as Hw
    by (by eapply Hrows, list_elem_of_lookup_2).
  destruct (decide (- Minesweeper.width g ≤ j < Minesweeper.width g))
    as [Hj | Hj].
  2: { rewrite position_out_of_range by lia. cbn [mbind option_bind].
       rewrite decide_False by tauto. done. }
  rewrite decide_True by done.
  rewrite position_wrap by lia. cbn [mbind option_bind].
  assert (Z.of_nat (length row) = Minesweeper.width g) as Hw' by lia.
  rewrite Hw'.
  assert (0 ≤ j mod Minesweeper.width g < Minesweeper.width g) as Hj'
    by (apply Z.mod_pos_bound; lia).
  specialize (Hagree (i mod Minesweeper.height g,
                      j mod Minesweeper.width g)).
  unfold Minesweeper.is_mine in Hagree. cbn [fst snd] in Hagree.
  rewrite index_in_range, Hrow in Hagree by lia.
  cbn [mbind option_bind] in Hagree.
  rewrite index_in_range in Hagree by lia.
  apply Hagree. by split.
Qed.

(** X6 on the 2×2 game with its mine at [(1,1)]: [(-1,-1)] reads the
    mine, [(0,2)] raises. *)
Lemma is_mine_spec_witness :
  ∃ g, Minesweeper.init 2 2 1 [(1, 1)] = Some g ∧
       Minesweeper.is_mine g (-1, -1) = Some true ∧
       Minesweeper.is_mine g (0, 2) = None.
Proof.
  destruct (Minesweeper.init 2 2 1 [(1, 1)]) as [g |] eqn:Hg;
    [| by vm_compute in Hg].
  exists g. split; [done |].
  assert (Minesweeper.wf g) as Hwf.
  { eapply (init_wf 2 2 1 [(1, 1)]); [| exact Hg].
    repeat constructor; cbn; lia. }
  rewrite !(is_mine_spec g) by done.
  injection Hg as <-. split; by vm_compute.
Defined.

(** X7: on a constructed game, [nearby_mines] returns the number of mines
    among the eight cells around the given cell, the cell itself left
    out; it is between 0 and 8. *)
Theorem nearby_mines_spec (g : Minesweeper.t) (cell : Cell) :
  Minesweeper.wf g →
  Minesweeper.nearby_mines g cell
  = Some (Z.of_nat (size (around cell ∩ Minesweeper.mines g))) ∧
  (size (around cell ∩ Minesweeper.mines g) ≤ 8)%nat.
Proof.
  intros Hwf. split.
  - unfold Minesweeper.nearby_mines. rewrite nearby_fold by done.
    rewrite length_filter_NoDup by apply neighbourhood_NoDup.
    f_equal. rewrite Z.add_0_l. do 2 f_equal. apply set_eq. intros x.
    unfold around.
    rewrite elem_of_filter, elem_of_intersection, elem_of_difference,
      elem_of_singleton.
    tauto.
  - rewrite <- (size_around cell). apply subseteq_size.
    apply intersection_subseteq_l.
Qed.

(** X7 on the 2×2 game with its mine at [(1,1)]. *)
Lemma nearby_mines_spec_witness :
  ∃ g, Minesweeper.init 2 2 1 [(1, 1)] = Some g ∧
       Minesweeper.nearby_mines g (0, 0)
       = Some (Z.of_nat (size (around (0, 0) ∩ Minesweeper.mines g))).
Proof.
  destruct (Minesweeper.init 2 2 1 [(1, 1)]) as [g |] eqn:Hg;
    [| by vm_compute in Hg].
  exists g. split; [done |].
  apply (nearby_mines_spec g (0, 0)).
  eapply (init_wf 2 2 1 [(1, 1)]); [| exact Hg].
  repeat constructor; cbn; lia.
Defined.

(** ** What the inference never touches *)

Section frame.

Implicit Types (st : MinesweeperAI) (r : nat) (cs : gset Cell).

Lemma same_frame_refl st : same_frame st st.
Proof. by repeat split. Qed.

Lemma same_frame_trans st1 st2 st3 :
  same_frame st1 st2 → same_frame st2 st3 → same_frame st1 st3.
Proof.
  intros (H1 & H2 & H3) (H4 & H5 & H6). repeat split; congruence.
Qed.

Lemma mark_mines_frame cs st : same_frame st (mark_mines cs st).
Proof.
  destruct (mark_mines_fields cs st) as (_ & _ & _ & H1 & H2 & H3 & _).
  by repeat split.
Qed.

Lemma mark_safes_frame cs st : same_frame st (mark_safes cs st).
Proof.
  destruct (mark_safes_fields cs st) as (_ & _ & _ & H1 & H2 & H3 & _).
  by repeat split.
Qed.

Lemma check_knowledge_fuel_frame fuel st st' :
  check_knowledge_fuel fuel st = Some st' → same_frame st st'.
Proof.
  revert st. induction fuel as [| f IH]; intros st; simpl; [done |].
  destruct (ck_scan _ _ _ _ _ _) as [[[st1 ms] ss] upd] eqn:Hscan.
  apply ck_scan_fields in Hscan as (_ & _ & _ & H1 & H2 & H3).
  assert (same_frame st st1) as Hf by (by repeat split).
  destruct upd; [| by intros [= <-]].
  intros H. apply IH in H.
  eapply same_frame_trans; [exact Hf |].
  eapply same_frame_trans; [apply mark_mines_frame |].
  eapply same_frame_trans; [apply mark_safes_frame | exact H].
Qed.

Lemma subset_loop_frame (rec : MinesweeperAI → nat → option MinesweeperAI)
    r n i st st' :
  (∀ st r st', rec st r = Some st' → same_frame st st') →
  subset_loop rec r n i st = Some st' → same_frame st st'.
Proof.
  intros Hrec. revert i st.
  induction n as [| n IH]; intros i st; cbn [subset_loop];
    destruct (knowledge st !! i) as [ir |]; try done;
    try (intros [= <-]; apply same_frame_refl).
  destruct (Sentence.len (deref st ir) =? 0).
  { intros H. by apply IH in H. }
  destruct (resolve _ _) as [d |]; [| apply IH].
  cbn [alloc].
  destruct (rec _ _) as [st2 |] eqn:Hcall; cbn [mbind option_bind]; [| done].
  intros H. apply IH in H. apply Hrec in Hcall.
  eapply same_frame_trans; [| exact H]. exact Hcall.
Qed.

Lemma check_and_add_sentence_frame fuel st r st' :
  check_and_add_sentence fuel st r = Some st' → same_frame st st'.
Proof.
  revert st r st'. induction fuel as [| f IH]; intros st r st';
    cbn [check_and_add_sentence]; [done |].
  destruct (check_knowledge st) as [st1 |] eqn:Hck;
    cbn [mbind option_bind]; [| done].
  apply check_knowledge_fuel_frame in Hck.
  destruct (knowledge_contains _ _); [by intros [= <-] |].
  destruct (Sentence.len _ =? 0); [by intros [= <-] |].
  destruct (Sentence.known_mines _) as [cs |].
  { intros [= <-]. eapply same_frame_trans; [exact Hck |].
    apply mark_mines_frame. }
  destruct (Sentence.known_safes _) as [cs |].
  { intros [= <-]. eapply same_frame_trans; [exact Hck |].
    apply mark_safes_frame. }
  intros H. apply subset_loop_frame in H; [| exact IH].
  eapply same_frame_trans; [exact Hck | exact H].
Qed.

End frame.

(** ** The player against the game *)

Section player_and_game.

Implicit Types (st : MinesweeperAI) (g : Minesweeper.t) (c cell : Cell).
Implicit Types (layout : gset Cell).

(** What [nearby_mines] counts, as a set. *)
Lemma nearby_mines_count g cell :
  Minesweeper.wf g →
  Minesweeper.nearby_mines g cell
  = Some (Z.of_nat (size (around cell ∩ Minesweeper.mines g))).
Proof.
  intros Hwf. unfold Minesweeper.nearby_mines.
  rewrite nearby_fold, length_filter_NoDup, Z.add_0_l
    by (done || apply neighbourhood_NoDup).
  do 3 f_equal. apply set_eq. intros x. unfold around.
  rewrite elem_of_filter, elem_of_intersection, elem_of_difference,
    elem_of_singleton.
  tauto.
Qed.

(** On a square board, the sentence [add_knowledge] builds from the true
    number of mines around the cell is true of the board. *)
Lemma build_sentence_holds layout st cell :
  height st = width st →
  (∀ c, c ∈ layout → 0 ≤ fst c < height st ∧ 0 ≤ snd c < width st) →
  mines st ⊆ layout → safes st ## layout →
  holds layout
    (build_sentence st cell (Z.of_nat (size (around cell ∩ layout)))).
Proof.
  intros Hsq Hon Hm Hs. unfold holds.
  rewrite build_sentence_count.
  rewrite length_filter_NoDup by apply neighbourhood_NoDup.
  set (B := cells (build_sentence st cell
                     (Z.of_nat (size (around cell ∩ layout))))).
  set (D := filter (discounted st cell)
              (list_to_set (neighbourhood cell) : gset Cell)).
  assert (∀ x, x ∈ B ↔ x ∈ neighbourhood cell ∧ kept st cell x) as HB
    by (intros x; apply build_sentence_cells).
  assert (∀ x, x ∈ D ↔ discounted st cell x ∧ x ∈ neighbourhood cell) as HD.
  { intros x. unfold D. by rewrite elem_of_filter, elem_of_list_to_set. }
  assert (∀ x, x ∈ layout → passes_bounds st x ∧ x ∉ safes st) as HL.
  { intros x Hx. destruct (Hon x Hx) as [Hi Hj]. split; [| set_solver].
    unfold passes_bounds. rewrite <- Hsq at 1. lia. }
  assert (around cell ∩ layout = (B ∩ layout) ∪ D) as ->.
  { apply set_eq. intros x.
    rewrite elem_of_union, !elem_of_intersection, HB, HD.
    unfold around, kept, discounted.
    rewrite elem_of_difference, elem_of_list_to_set, elem_of_singleton.
    split.
    - intros [[Hnb Hne] Hx]. destruct (HL x Hx) as [Hp Hsafe].
      destruct (decide (x ∈ mines st)) as [Hin | Hout].
      + right. exact (conj (conj Hne (conj Hp (conj Hsafe Hin))) Hnb).
      + left. exact (conj (conj Hnb (conj Hne (conj Hp (conj Hsafe Hout)))) Hx).
    - intros [[[Hnb (Hne & _)] Hx] | [(Hne & _ & _ & Hmine) Hnb]].
      + exact (conj (conj Hnb Hne) Hx).
      + exact (conj (conj Hnb Hne) (Hm x Hmine)). }
  rewrite size_union.
  - lia.
  - intros x Hx1 Hx2. apply elem_of_intersection in Hx1 as [Hx1 _].
    apply HB in Hx1 as [_ (_ & _ & _ & Hx1)].
    apply HD in Hx2 as [(_ & _ & _ & Hx2) _]. done.
Qed.

Lemma sound_observed layout st cell :
  cell ∉ layout → sound layout st →
  sound layout
    {| height := height st; width := width st;
       moves_made := {[cell]} ∪ moves_made st; mines := mines st;
       safes := {[cell]} ∪ safes st; heap := heap st;
       knowledge := knowledge st |}.
Proof. intros Hc (Hh & Hm & Hs). unfold sound. cbn. set_solver. Qed.

(** One true observation keeps the player right about the board. *)
Lemma add_knowledge_sound g st fuel cell n st' :
  Minesweeper.wf g →
  Minesweeper.height g = Minesweeper.width g →
  height st = Minesweeper.height g → width st = Minesweeper.width g →
  sound (Minesweeper.mines g) st →
  cell ∉ Minesweeper.mines g →
  Minesweeper.nearby_mines g cell = Some n →
  add_knowledge fuel cell n st = Some st' →
  sound (Minesweeper.mines g) st' ∧
  height st' = height st ∧ width st' = width st.
Proof.
  intros Hwf Hsq Hh Hw Hst Hcell Hn Hadd.
  assert (n = Z.of_nat (size (around cell ∩ Minesweeper.mines g))) as ->.
  { pose proof (nearby_mines_count g cell Hwf) as Hcount. congruence. }
  unfold add_knowledge in Hadd. cbn [alloc] in Hadd.
  pose proof (sound_observed _ st cell Hcell Hst) as Hst1.
  set (st1 := {| height := height st; width := width st;
                 moves_made := {[cell]} ∪ moves_made st; mines := mines st;
                 safes := {[cell]} ∪ safes st; heap := heap st;
                 knowledge := knowledge st |}) in *.
  split.
  - eapply check_and_add_sentence_sound; [| exact Hadd].
    apply (sound_alloc _ st1 _ Hst1).
    destruct Hwf as (_ & _ & Hon & _). destruct Hst1 as (_ & Hm1 & Hs1).
    apply build_sentence_holds; cbn; try done; [congruence |].
    intros c Hc. destruct (Hon c Hc) as [Hi Hj].
    rewrite Hh, Hw. done.
  - apply check_and_add_sentence_frame in Hadd as (_ & -> & ->). done.
Qed.

End player_and_game.

Section moves.

Implicit Types (st : MinesweeperAI) (g : Minesweeper.t) (c cell : Cell).

Lemma make_safe_move_Some st c :
  make_safe_move st = Some c → c ∈ safes st ∧ c ∉ moves_made st.
Proof.
  unfold make_safe_move. intros H. apply find_some in H as [Hin Hfree].
  split.
  - apply elem_of_elements. by apply list_elem_of_In.
  - by apply bool_decide_eq_true in Hfree.
Qed.

Lemma play_stuck fuel (obs : list (Cell * Z)) :
  foldl (λ o '(c, n), st ← o; add_knowledge fuel c n st) None obs = None.
Proof. induction obs as [| [c n] obs IH]; [done | exact IH]. Qed.

Lemma play_sound g fuel obs st st' :
  Minesweeper.wf g →
  Minesweeper.height g = Minesweeper.width g →
  height st = Minesweeper.height g → width st = Minesweeper.width g →
  sound (Minesweeper.mines g) st →
  truthful g obs →
  play fuel obs st = Some st' →
  sound (Minesweeper.mines g) st'.
Proof.
  intros Hwf Hsq. revert st.
  induction obs as [| [c n] obs IH]; intros st Hh Hw Hst Hobs.
  { by intros [= <-]. }
  apply Forall_cons in Hobs as [[Hc Hn] Hobs]. cbn in Hc, Hn.
  unfold play. cbn [foldl mbind option_bind].
  destruct (add_knowledge fuel c n st) as [st1 |] eqn:Hadd.
  - destruct (add_knowledge_sound g st fuel c n st1) as (Hst1 & Hh1 & Hw1);
      try done.
    apply IH; [congruence | congruence | done | done].
  - by rewrite play_stuck.
Qed.

End moves.

(** X8: the inference keeps the knowledge true.  If every sentence created
    so far is true of a mine layout, the known mines are mines of it and
    the known safe cells are not, then the same holds after
    [check_and_add_sentence] has returned, with the sentences it derived;
    no cell is then both a known mine and a known safe cell, and the cell
    [make_safe_move] proposes is not a mine. *)
Theorem inference_sound (layout : gset Cell) (fuel r : nat)
    (st st' : MinesweeperAI) :
  sound layout st →
  check_and_add_sentence fuel st r = Some st' →
  sound layout st' ∧ mines st' ## safes st' ∧
  ∀ c, make_safe_move st' = Some c → c ∉ layout.
Proof.
  intros Hst Hrun.
  pose proof (check_and_add_sentence_sound layout fuel st r st' Hst Hrun)
    as Hst'.
  split; [exact Hst' |]. destruct Hst' as (_ & Hm & Hs).
  split; [set_solver |].
  intros c Hc. apply make_safe_move_Some in Hc as [Hc _].
  intros Hmine. by apply (Hs c).
Qed.

(** X8 on the sentence {(0,1), (1,0), (1,1)} = 1 and a board whose one mine
    is at [(1,1)]. *)
Lemma inference_sound_witness :
  ∃ st', check_and_add_sentence 5
           (fst (alloc (MinesweeperAI_init 2 2)
                   (Sentence.init {[(0, 1); (1, 0); (1, 1)]} 1))) 0
         = Some st' ∧
         sound {[(1, 1)]} st'.
Proof.
  eexists. split; [vm_compute; reflexivity |].
  eapply (inference_sound {[(1, 1)]} 5 0
            (fst (alloc (MinesweeperAI_init 2 2)
                    (Sentence.init {[(0, 1); (1, 0); (1, 1)]} 1)))).
  - unfold sound. cbn.
    split; [repeat constructor; by vm_compute | set_solver].
  - vm_compute. reflexivity.
Defined.

(** X9: a player on a square board who is told, for cells that are not
    mines, the counts [Minesweeper.nearby_mines] returns, is never wrong:
    after any number of [add_knowledge] calls every cell it holds for a
    mine is a mine of the game, every cell of the board it holds for safe
    reads [False], and [make_safe_move] never proposes a mine. *)
Theorem truthful_play_sound (g : Minesweeper.t) (fuel : nat)
    (obs : list (Cell * Z)) (st' : MinesweeperAI) :
  Minesweeper.wf g →
  Minesweeper.height g = Minesweeper.width g →
  truthful g obs →
  play fuel obs
    (MinesweeperAI_init (Minesweeper.height g) (Minesweeper.width g))
  = Some st' →
  mines st' ⊆ Minesweeper.mines g ∧
  (∀ c, c ∈ safes st' → Minesweeper.on_board g c →
        Minesweeper.is_mine g c = Some false) ∧
  (∀ c, make_safe_move st' = Some c → c ∉ Minesweeper.mines g).
Proof.
  intros Hwf Hsq Hobs Hplay.
  assert (sound (Minesweeper.mines g)
            (MinesweeperAI_init (Minesweeper.height g)
               (Minesweeper.width g))) as Hfresh.
  { unfold sound. cbn. split; [constructor | set_solver]. }
  apply (play_sound g) in Hplay as (_ & Hm & Hs); [| done ..].
  split; [exact Hm |]. split.
  - intros c Hc Hon. destruct Hwf as (_ & _ & _ & Hread).
    rewrite (Hread c Hon). f_equal. apply bool_decide_eq_false.
    intros Hmine. by apply (Hs c).
  - intros c Hc. apply make_safe_move_Some in Hc as [Hc _].
    intros Hmine. by apply (Hs c).
Qed.

(** X9 on the 2×2 game with its mine at [(1,1)], the player having looked
    at [(0,0)]. *)
Lemma truthful_play_sound_witness :
  ∃ g st', Minesweeper.init 2 2 1 [(1, 1)] = Some g ∧
           play 5 [((0, 0), 1)] (MinesweeperAI_init 2 2) = Some st' ∧
           mines st' ⊆ Minesweeper.mines g.
Proof.
  destruct (Minesweeper.init 2 2 1 [(1, 1)]) as [g |] eqn:Hg;
    [| by vm_compute in Hg].
  assert (Minesweeper.wf g) as Hwf.
  { eapply (init_wf 2 2 1 [(1, 1)]); [| exact Hg].
    repeat constructor; cbn; lia. }
  vm_compute in Hg. injection Hg as <-.
  eexists _, _. split; [reflexivity |].
  split; [vm_compute; reflexivity |].
  eapply (truthful_play_sound _ 5 [((0, 0), 1)]).
  - exact Hwf.
  - reflexivity.
  - apply Forall_cons. split; [| by apply Forall_nil].
    split; [by_compute | by vm_compute].
  - vm_compute. reflexivity.
Defined.

(** ** Choosing a move *)

(** X10: [make_safe_move] returns a cell that is known to be safe and has
    not been played, and returns [None] exactly when every known safe cell
    has been played. *)
Theorem make_safe_move_spec (st : MinesweeperAI) :
  (∀ c, make_safe_move st = Some c → c ∈ safes st ∧ c ∉ moves_made st) ∧
  (make_safe_move st = None ↔ safes st ⊆ moves_made st).
Proof.
  split; [apply make_safe_move_Some |].
  unfold make_safe_move. split.
  - intros Hnone c Hc.
    apply elem_of_elements, list_elem_of_In in Hc.
    pose proof (find_none _ _ Hnone c Hc) as Hplayed. cbn in Hplayed.
    apply bool_decide_eq_false in Hplayed.
    by destruct (decide (c ∈ moves_made st)).
  - intros Hsub.
    destruct (find _ _) as [c |] eqn:Hfind; [| done].
    apply find_some in Hfind as [Hin Hfree].
    apply list_elem_of_In, elem_of_elements, Hsub in Hin.
    by apply bool_decide_eq_true in Hfree.
Qed.

(** X11: what [make_random_move] returns.  A cell it returns is one of the
    cells drawn, has not been played and is not a known mine; it returns
    [None] exactly when the numbers of played cells and of known mines add
    up to the number of cells of the board. *)
Theorem make_random_move_spec (draws : list Cell) (st : MinesweeperAI) :
  (∀ c, make_random_move draws st = Some (Some c) →
        c ∈ draws ∧ (c ∉ moves_made st) ∧ (c ∉ mines st) ∧
        Z.of_nat (size (moves_made st)) + Z.of_nat (size (mines st))
        ≠ height st * width st) ∧
  (make_random_move draws st = Some None ↔
   Z.of_nat (size (moves_made st)) + Z.of_nat (size (mines st))
   = height st * width st).
Proof.
  split.
  - intros c. induction draws as [| d draws IH]; cbn [make_random_move];
      destruct (Z.eqb_spec
                  (Z.of_nat (size (moves_made st)) + Z.of_nat (size (mines st)))
                  (height st * width st)) as [E | E]; try done.
    destruct (decide _) as [[Hplayed Hmine] | _].
    + intros [= <-]. split; [apply list_elem_of_here | done].
    + intros H. destruct (IH H) as (Hin & Hrest).
      split; [by apply list_elem_of_further | done].
  - split.
    + induction draws as [| d draws IH]; cbn [make_random_move];
        destruct (Z.eqb_spec
                    (Z.of_nat (size (moves_made st))
                     + Z.of_nat (size (mines st)))
                    (height st * width st)) as [E | E]; try done.
      destruct (decide _); [done | exact IH].
    + intros E. apply Z.eqb_eq in E.
      destruct draws; cbn [make_random_move]; by rewrite E.
Qed.

(** X12: [make_random_move] returns once a cell is drawn that has not been
    played and is not a known mine. *)
Theorem make_random_move_returns (draws : list Cell) (st : MinesweeperAI)
    (c : Cell) :
  c ∈ draws → c ∉ moves_made st → c ∉ mines st →
  is_Some (make_random_move draws st).
Proof.
  intros Hin Hplayed Hmine.
  induction draws as [| d draws IH]; [by apply elem_of_nil in Hin |].
  cbn [make_random_move]. destruct (_ =? _); [done |].
  destruct (decide _) as [| Htaken]; [done |].
  apply IH. apply elem_of_cons in Hin as [-> | Hin]; [| done].
  by destruct Htaken.
Qed.

Lemma make_random_move_returns_witness :
  is_Some (make_random_move [(0, 0); (0, 1)]
             (mark_mine (0, 0) (MinesweeperAI_init 2 2))).
Proof.
  apply (make_random_move_returns _ _ (0, 1)).
  - by_compute.
  - by_compute.
  - by_compute.
Defined.

(** X13: the loop of [make_random_move] has no other way out.  When every
    cell of the board has been played or is a known mine, and the two
    numbers do not add up to the number of cells (a played cell is also a
    known mine, or one of the sets holds a cell outside the board), it
    never returns, whatever is drawn. *)
Theorem make_random_move_never_returns (draws : list Cell)
    (st : MinesweeperAI) :
  Z.of_nat (size (moves_made st)) + Z.of_nat (size (mines st))
  ≠ height st * width st →
  (∀ c, in_range (height st) (width st) c →
        c ∈ moves_made st ∨ c ∈ mines st) →
  Forall (in_range (height st) (width st)) draws →
  make_random_move draws st = None.
Proof.
  intros Hsizes Hfull Hdraws.
  induction Hdraws as [| d draws Hd _ IH]; cbn [make_random_move];
    destruct (Z.eqb_spec
                (Z.of_nat (size (moves_made st)) + Z.of_nat (size (mines st)))
                (height st * width st)) as [E | _]; try done.
  destruct (decide _) as [[Hplayed Hmine] | _]; [| exact IH].
  by destruct (Hfull d Hd).
Qed.

(** X13 on a 1×1 board whose cell has been played and is then marked as a
    mine. *)
Lemma make_random_move_never_returns_witness :
  make_random_move [(0, 0); (0, 0); (0, 0)]
    (mark_mine (0, 0)
       {| height := 1; width := 1; moves_made := {[(0, 0)]}; mines := ∅;
          safes := ∅; heap := []; knowledge := [] |})
  = None.
Proof.
  apply make_random_move_never_returns.
  - by vm_compute.
  - intros [i j] [Hi Hj]. cbn in Hi, Hj. left.
    assert (i = 0) as -> by lia. assert (j = 0) as -> by lia.
    by_compute.
  - repeat constructor; cbn; lia.
Defined.

(** ** What [check_knowledge] leaves of the knowledge *)

Section check_knowledge_shape.

Implicit Types (st : MinesweeperAI) (r : nat) (ms ss : gset Cell).

Lemma remove_first_shorter h x k r :
  r ∈ k → default (Sentence.init ∅ 0) (h !! r) = x →
  (length (remove_first h x k) < length k)%nat.
Proof.
  intros Hin Hx. induction k as [| r' k IH]; [by apply elem_of_nil in Hin |].
  simpl. destruct (Sentence.eq _ x) eqn:E; simpl; [lia |].
  apply elem_of_cons in Hin as [-> | Hin].
  - assert (Sentence.eq (default (Sentence.init ∅ 0) (h !! r')) x = true)
      by (by apply sentence_eq_spec).
    congruence.
  - specialize (IH Hin). lia.
Qed.

Lemma remove_first_dropped h x k r :
  r ∈ k → r ∉ remove_first h x k →
  default (Sentence.init ∅ 0) (h !! r) = x.
Proof.
  induction k as [| r' k IH]; simpl; [by intros ?%elem_of_nil |].
  destruct (Sentence.eq _ x) eqn:E; intros Hin Hout.
  - apply elem_of_cons in Hin as [-> | Hin]; [| done].
    by apply sentence_eq_spec.
  - apply elem_of_cons in Hin as [-> | Hin].
    + exfalso. apply Hout. apply list_elem_of_here.
    + apply IH; [done |]. intros H. apply Hout. by apply list_elem_of_further.
Qed.

Lemma ck_scan_length n i st ms ss upd st' ms' ss' upd' :
  ck_scan n i st ms ss upd = (st', ms', ss', upd') →
  (length (knowledge st') ≤ length (knowledge st))%nat.
Proof.
  revert i st ms ss upd.
  induction n as [| n IH]; intros i st ms ss upd; simpl.
  { by intros [= <- _ _ _]. }
  destruct (knowledge st !! i) as [r |]; [| by intros [= <- _ _ _]].
  destruct (Sentence.len (deref st r) =? 0).
  - intros H. apply IH in H. etrans; [exact H |]. apply remove_first_length.
  - destruct (Sentence.known_mines _), (Sentence.known_safes _);
      intros H; by apply IH in H.
Qed.

(** Once set, [update] stays set. *)
Lemma ck_scan_upd n i st ms ss st' ms' ss' upd' :
  ck_scan n i st ms ss true = (st', ms', ss', upd') → upd' = true.
Proof.
  revert i st ms ss.
  induction n as [| n IH]; intros i st ms ss; simpl.
  { by intros [= _ _ _ <-]. }
  destruct (knowledge st !! i) as [r |]; [| by intros [= _ _ _ <-]].
  destruct (Sentence.len (deref st r) =? 0); [apply IH |].
  destruct (Sentence.known_mines _), (Sentence.known_safes _); apply IH.
Qed.

(** A pass that changes nothing and asks for no other pass has seen
    nontrivial sentences only. *)
Lemma ck_scan_unchanged n i st ms ss ms' ss' :
  ck_scan n i st ms ss false = (st, ms', ss', false) →
  (length (knowledge st) ≤ i + n)%nat →
  ∀ j r, (i ≤ j)%nat → knowledge st !! j = Some r → nontrivial (deref st r).
Proof.
  revert i ms ss.
  induction n as [| n IH]; intros i ms ss; simpl.
  { intros _ Hlen j r Hj Hr. apply lookup_lt_Some in Hr. lia. }
  destruct (knowledge st !! i) as [r0 |] eqn:Hr0.
  2: { intros _ _ j r Hj Hr. apply lookup_ge_None in Hr0.
       apply lookup_lt_Some in Hr. lia. }
  destruct (Z.eqb_spec (Sentence.len (deref st r0)) 0) as [Hempty | Hlen0].
  { intros H. apply ck_scan_length in H. cbn in H.
    pose proof (remove_first_shorter (heap st) (deref st r0) (knowledge st)
                  r0 (list_elem_of_lookup_2 _ _ _ Hr0) eq_refl).
    lia. }
  unfold Sentence.known_mines, Sentence.known_safes.
  destruct (Z.eqb_spec (Sentence.len (deref st r0)) (count (deref st r0)))
    as [| Hcount].
  { destruct (count (deref st r0) =? 0); intros H;
      by apply ck_scan_upd in H. }
  destruct (Z.eqb_spec (count (deref st r0)) 0) as [| Hzero].
  { intros H. by apply ck_scan_upd in H. }
  intros H Hlen j r Hj Hr.
  destruct (decide (j = i)) as [-> | Hne].
  - assert (r = r0) as -> by congruence. done.
  - apply (IH (S i) ms ss H) with (j := j); [lia | lia | done].
Qed.

Lemma check_knowledge_fuel_nonempty fuel st st' :
  check_knowledge_fuel fuel st = Some st' →
  (length (nonempty_refs st') ≤ length (nonempty_refs st))%nat.
Proof.
  revert st. induction fuel as [| f IH]; intros st; simpl; [done |].
  destruct (ck_scan _ _ _ _ _ _) as [[[st1 ms] ss] upd] eqn:Hscan.
  destruct upd.
  - intros H. apply IH in H. apply pass_empties_a_sentence in Hscan. lia.
  - intros [= <-]. apply ck_scan_nonempty in Hscan. by rewrite Hscan.
Qed.

Lemma ck_scan_dropped n i st ms ss upd st' ms' ss' upd' r :
  ck_scan n i st ms ss upd = (st', ms', ss', upd') →
  r ∈ knowledge st → r ∉ knowledge st' → cells (deref st r) = ∅.
Proof.
  revert i st ms ss upd.
  induction n as [| n IH]; intros i st ms ss upd; simpl.
  { by intros [= <- _ _ _]. }
  destruct (knowledge st !! i) as [r0 |]; [| by intros [= <- _ _ _]].
  destruct (Z.eqb_spec (Sentence.len (deref st r0)) 0) as [Hempty | _].
  - intros H Hin Hout.
    destruct (decide (r ∈ knowledge (knowledge_remove st (deref st r0))))
      as [Hkept | Hgone].
    + exact (IH _ _ _ _ _ H Hkept Hout).
    + apply len_zero_iff in Hempty. rewrite <- Hempty. f_equal.
      exact (remove_first_dropped _ _ _ _ Hin Hgone).
  - destruct (Sentence.known_mines _), (Sentence.known_safes _);
      apply IH.
Qed.

Lemma check_knowledge_fuel_shape fuel st st' :
  check_knowledge_fuel fuel st = Some st' →
  knowledge st' ⊆ knowledge st ∧
  length (heap st') = length (heap st) ∧
  ∀ r, r ∈ knowledge st → r ∉ knowledge st' → cells (deref st' r) = ∅.
Proof.
  revert st. induction fuel as [| f IH]; intros st Hrun; [done |].
  pose proof (λ r, check_knowledge_fuel_cells _ _ _ r Hrun) as Hshrink.
  simpl in Hrun.
  destruct (ck_scan _ _ _ _ _ _) as [[[st1 ms] ss] upd] eqn:Hscan.
  pose proof (ck_scan_knowledge_subseteq _ _ _ _ _ _ _ _ _ _ Hscan) as Hsub.
  pose proof (ck_scan_fields _ _ _ _ _ _ _ _ _ _ Hscan) as (Hheap & _).
  assert (∀ r, r ∈ knowledge st → r ∉ knowledge st1 →
               cells (deref st' r) = ∅) as Hdrop.
  { intros r Hin Hout.
    pose proof (ck_scan_dropped _ _ _ _ _ _ _ _ _ _ r Hscan Hin Hout).
    specialize (Hshrink r). set_solver. }
  destruct upd.
  - apply IH in Hrun as (Hsub' & Hlen' & Hdrop').
    destruct (mark_safes_fields ss (mark_mines ms st1)) as (Hk2 & Hrest2).
    destruct (mark_mines_fields ms st1) as (Hk1 & Hrest1).
    rewrite Hk2, Hk1 in Hsub', Hdrop'.
    split; [set_solver |]. split.
    + rewrite Hlen'.
      destruct Hrest2 as (_ & _ & _ & _ & _ & ->).
      destruct Hrest1 as (_ & _ & _ & _ & _ & ->). by rewrite Hheap.
    + intros r Hin Hout.
      destruct (decide (r ∈ knowledge st1)) as [Hr | Hr]; [by apply Hdrop' |].
      by apply Hdrop.
  - injection Hrun as <-. split; [done |]. split; [by rewrite Hheap |].
    exact Hdrop.
Qed.

End check_knowledge_shape.

(** X14: [check_knowledge] leaves the state as it is exactly when every
    stored sentence has cells, a count other than 0 and a count other than
    its number of cells. *)
Theorem check_knowledge_fixpoint (st : MinesweeperAI) :
  check_knowledge st = Some st ↔ settled st.
Proof.
  split.
  - unfold check_knowledge. cbn [check_knowledge_fuel].
    destruct (ck_scan _ _ _ _ _ _) as [[[st1 ms] ss] upd] eqn:Hscan.
    destruct upd.
    + intros Hrun. apply check_knowledge_fuel_nonempty in Hrun.
      apply pass_empties_a_sentence in Hscan. lia.
    + intros [= ->] r Hr. apply list_elem_of_lookup in Hr as [j Hj].
      apply (ck_scan_unchanged _ _ _ _ _ _ _ Hscan) with (j := j);
        [lia | lia | done].
  - intros Hst. unfold check_knowledge. cbn [check_knowledge_fuel].
    by rewrite ck_scan_settled.
Qed.

(** X15: [check_knowledge] creates no sentence and stores none; it only
    takes cells out of sentences, and a sentence it drops from the
    knowledge has no cells left. *)
Theorem check_knowledge_drops_only_empty (st st' : MinesweeperAI) :
  check_knowledge st = Some st' →
  knowledge st' ⊆ knowledge st ∧
  length (heap st') = length (heap st) ∧
  (∀ r, cells (deref st' r) ⊆ cells (deref st r)) ∧
  (∀ r, r ∈ knowledge st → r ∉ knowledge st' → cells (deref st' r) = ∅).
Proof.
  intros Hrun. unfold check_knowledge in Hrun.
  pose proof (check_knowledge_fuel_shape _ _ _ Hrun) as (Hsub & Hlen & Hdrop).
  split; [exact Hsub |]. split; [exact Hlen |].
  split; [| exact Hdrop].
  intros r. exact (check_knowledge_fuel_cells _ _ _ r Hrun).
Qed.

(** X15 on the knowledge [{(1,1), (1,2)} = 2], which ends empty. *)
Lemma check_knowledge_drops_only_empty_witness :
  ∃ st', check_knowledge
           {| height := 8; width := 8; moves_made := ∅; mines := ∅;
              safes := ∅; heap := [Sentence.init {[(1, 1); (1, 2)]} 2];
              knowledge := [0%nat] |} = Some st' ∧
         knowledge st' = [] ∧ cells (deref st' 0) = ∅.
Proof.
  eexists. split; [vm_compute; reflexivity |]. split; [by vm_compute |].
  eapply (check_knowledge_drops_only_empty
            {| height := 8; width := 8; moves_made := ∅; mines := ∅;
               safes := ∅; heap := [Sentence.init {[(1, 1); (1, 2)]} 2];
               knowledge := [0%nat] |}).
  - vm_compute. reflexivity.
  - by_compute.
  - by_compute.
Defined.

(** ** What one observation records *)

(** One call of [check_and_add_sentence], after its [check_knowledge]. *)
Lemma check_and_add_sentence_step (f : nat) (st : MinesweeperAI) (r : nat)
    (st1 : MinesweeperAI) :
  check_knowledge st = Some st1 →
  check_and_add_sentence (S f) st r
  = if knowledge_contains st1 (deref st1 r) then Some st1
    else if Sentence.len (deref st1 r) =? 0 then Some st1
    else match Sentence.known_mines (deref st1 r) with
         | Some cs => Some (mark_mines cs st1)
         | None =>
             match Sentence.known_safes (deref st1 r) with
             | Some cs => Some (mark_safes cs st1)
             | None =>
                 subset_loop (check_and_add_sentence f) r f 0
                   (set_knowledge st1 (knowledge st1 ++ [r]))
             end
         end.
Proof. intros H. simpl. by rewrite H. Qed.

(** X16: [add_knowledge] records the move and nothing else about the
    moves: when it returns, [moves_made] is the old set with the observed
    cell added, the cell is among the safe cells, and the board size is
    untouched, whatever the inference did. *)
Theorem add_knowledge_records_move (fuel : nat) (cell : Cell) (n : Z)
    (st st' : MinesweeperAI) :
  add_knowledge fuel cell n st = Some st' →
  moves_made st' = {[cell]} ∪ moves_made st ∧ cell ∈ safes st' ∧
  height st' = height st ∧ width st' = width st.
Proof.
  unfold add_knowledge. cbn [alloc]. intros Hrun.
  pose proof (check_and_add_sentence_frame _ _ _ _ Hrun) as (Hm & Hh & Hw).
  pose proof (check_and_add_sentence_grows _ _ _ _ Hrun) as (_ & Hs & _).
  cbn in Hm, Hh, Hw, Hs.
  split; [exact Hm |]. split; [set_solver |]. by split.
Qed.

Lemma add_knowledge_records_move_witness :
  ∃ st', add_knowledge 5 (0, 0) 1 (MinesweeperAI_init 8 8) = Some st' ∧
         moves_made st' = {[(0, 0)]} ∪ ∅.
Proof.
  eexists. split; [vm_compute; reflexivity |].
  eapply (add_knowledge_records_move 5 (0, 0) 1 (MinesweeperAI_init 8 8)).
  vm_compute. reflexivity.
Defined.

(** X17: a zero stores no sentence.  With an empty knowledge and no known
    mine, [add_knowledge(cell, 0)] returns with the knowledge still empty
    and no known mine; the cells marked safe are the cell itself and those
    of the eight cells around it that pass the bounds test of line 300. *)
Theorem zero_count_marks_neighbours (fuel : nat) (cell : Cell)
    (st : MinesweeperAI) :
  knowledge st = [] → mines st = ∅ →
  ∃ st', add_knowledge (S fuel) cell 0 st = Some st' ∧
         knowledge st' = [] ∧ mines st' = ∅ ∧
         moves_made st' = {[cell]} ∪ moves_made st ∧
         safes st'
         = {[cell]} ∪ safes st ∪ filter (passes_bounds st) (around cell).
Proof.
  destruct st as [h w mv mi sa hp kn]. cbn [knowledge mines moves_made safes].
  intros -> ->.
  set (st := {| height := h; width := w; moves_made := mv; mines := ∅;
                safes := sa; heap := hp; knowledge := [] |}).
  set (st0 := {| height := h; width := w; moves_made := {[cell]} ∪ mv;
                 mines := ∅; safes := {[cell]} ∪ sa; heap := hp;
                 knowledge := [] |}).
  set (s := build_sentence st0 cell 0).
  set (st1 := {| height := h; width := w; moves_made := {[cell]} ∪ mv;
                 mines := ∅; safes := {[cell]} ∪ sa; heap := hp ++ [s];
                 knowledge := [] |}).
  assert (deref st1 (length hp) = s) as Hs by apply (deref_alloc_new st0 s).
  assert (count s = 0) as Hcount.
  { unfold s. rewrite build_sentence_count.
    destruct (filter _ _) as [| x l] eqn:Hf; [done |].
    pose proof (list_elem_of_here x l) as Hx. rewrite <- Hf in Hx.
    apply list_elem_of_filter in Hx as [(_ & _ & _ & Hx) _].
    cbn in Hx. set_solver. }
  assert ({[cell]} ∪ sa ∪ cells s
          = {[cell]} ∪ sa ∪ filter (passes_bounds st) (around cell))
    as Hsafe.
  { apply set_eq. intros x. unfold s, around.
    rewrite !elem_of_union, build_sentence_cells, elem_of_filter,
      elem_of_difference, elem_of_list_to_set, !elem_of_singleton.
    unfold kept. cbn [safes mines]. split.
    - intros [Hold | (Hnb & Hne & Hb & _)]; [by left | right]. done.
    - intros [Hold | (Hb & Hnb & Hne)]; [by left |].
      destruct (decide (x ∈ {[cell]} ∪ sa)) as [Hin | Hout].
      + left. set_solver.
      + right.
        exact (conj Hnb (conj Hne (conj Hb (conj Hout (not_elem_of_empty x))))). }
  change (add_knowledge (S fuel) cell 0 _)
    with (check_and_add_sentence (S fuel) st1 (length hp)).
  rewrite (check_and_add_sentence_step fuel st1 (length hp) st1)
    by reflexivity.
  rewrite Hs. change (knowledge_contains st1 s) with false. cbv iota.
  destruct (Z.eqb_spec (Sentence.len s) 0) as [Hempty | Hcells].
  { exists st1. split; [done |]. split; [done |]. split; [done |].
    split; [done |]. etrans; [| exact Hsafe]. apply len_zero_iff in Hempty.
    rewrite Hempty. cbn. set_solver. }
  unfold Sentence.known_mines, Sentence.known_safes. rewrite Hcount.
  destruct (Z.eqb_spec (Sentence.len s) 0) as [| _]; [done |]. cbn [Z.eqb].
  eexists. split; [done |].
  destruct (mark_safes_fields (cells s) st1)
    as (-> & -> & -> & -> & _).
  split; [done |]. split; [done |]. split; [done |].
  etrans; [| exact Hsafe]. cbn. set_solver.
Qed.

(** X17 on a fresh 8×8 player looking at the corner. *)
Lemma zero_count_marks_neighbours_witness :
  ∃ st', add_knowledge 1 (0, 0) 0 (MinesweeperAI_init 8 8) = Some st' ∧
         knowledge st' = [] ∧
         safes st' = {[(0, 0); (0, 1); (1, 0); (1, 1)]}.
Proof.
  destruct (zero_count_marks_neighbours 0 (0, 0) (MinesweeperAI_init 8 8))
    as (st' & Hrun & Hk & _ & _ & Hs); [done | done |].
  exists st'. split; [exact Hrun |]. split; [exact Hk |].
  rewrite Hs. by vm_compute.
Defined.

(** ** The rules of inference *)

(** X18: each rule the player applies to a sentence is valid.  For a
    sentence that is true of a mine layout: the cells [known_mines]
    returns are mines and those [known_safes] returns are not; the
    sentence stays true when a mine is taken out with [mark_mine] or a
    cell without mine with [mark_safe]; and the sentence derived from it
    and another true sentence (lines 268-281) is true. *)
Theorem sentence_rules_valid (layout : gset Cell) (s : Sentence) :
  holds layout s →
  (∀ cs, Sentence.known_mines s = Some cs → cs ⊆ layout) ∧
  (∀ cs, Sentence.known_safes s = Some cs → cs ## layout) ∧
  (∀ c, c ∈ layout → holds layout (Sentence.mark_mine c s)) ∧
  (∀ c, c ∉ layout → holds layout (Sentence.mark_safe c s)) ∧
  (∀ s' d, holds layout s' →
           resolve s s' = Some d ∨ resolve s' s = Some d →
           holds layout d).
Proof.
  intros Hs.
  split; [intros cs; by apply holds_known_mines |].
  split; [intros cs; by apply holds_known_safes |].
  split; [intros c Hc; by apply holds_mark_mine |].
  split; [intros c Hc; by apply holds_mark_safe |].
  intros s' d Hs' [Hd | Hd].
  - exact (resolve_sound layout s s' d Hs Hs' Hd).
  - exact (resolve_sound layout s' s d Hs' Hs Hd).
Qed.

(** X18 on [{(0,1), (1,0)} = 1] and a board whose one mine is at
    [(0,1)]. *)
Lemma sentence_rules_valid_witness :
  holds {[(0, 1)]}
    (Sentence.mark_safe (1, 0) (Sentence.init {[(0, 1); (1, 0)]} 1)).
Proof.
  apply (sentence_rules_valid {[(0, 1)]}
           (Sentence.init {[(0, 1); (1, 0)]} 1)).
  - by vm_compute.
  - by_compute.
Defined.
